(** * Jalsaat: client reconciliation and financial aggregation

    A shallow embedding of the business logic of the application:

    - the fuzzy client matcher of the component [ClientValidationModal]
      (src/src/components/ServiceDetailModal.tsx, lines 613-899):
      [calculateMatchScore], [findBestMatch], the effect that computes
      the unlinked events, the handlers [handleLink], [handleCreate] and
      [handleIgnore], and the navigation of the dialog;
    - the financial roll-ups of the component [FinancialStudio]
      (components/FinancialStudio.tsx, here src/unnamed/part_001):
      [eventFinancials], the two sort comparators, [requestSort] and the
      commission summary;
    - the line items and the tables of a quotation, of the components
      [QuotationGenerator] and [QuotationPreview] (the same file, lines
      198-611 and 900-1152).

    Modelling conventions.

    - Numbers are read in two ways.  The match scores, the comparators
      and the quotation are computed on exact rationals with [NaN]
      (module [JS]), rounding and overflow left aside.
      The financial derivation and the commissions are computed in IEEE
      754 double precision (module [Binary64]), with its rounding, its
      infinities and its [NaN], on the objects that the component
      receives (modules [Dynamic] and [FinancialStudio64]).  The
      derivation on typed records and exact rationals (module
      [FinancialStudio]) is kept for the statements on the sign of a
      quantity, on the order of the rows and on the subtotal of a
      quotation.
    - A JavaScript string is a Rocq [string] whose characters are read as
      the UTF-16 code units below 256 (Latin-1).  [toLowerCase], [trim]
      and the regular expressions of the source are exact on that range.
    - A field of a typed record that may be missing is a [field]:
      [Undefined], [Null] or [Present v].
    - [forEach] loops that update local variables, and [reduce], are left
      folds over the array.
    - A call that throws a TypeError returns [None]. *)

From Stdlib Require Import QArith Qcanon Ascii String SpecFloat.
From stdpp Require Import base decidable option numbers list gmap strings.

Local Open Scope string_scope.
Local Open Scope Qc_scope.

(** ** JavaScript primitives *)

Module JS.

(** *** Possibly missing fields *)

Inductive field (A : Type) : Type :=
  | Undefined : field A
  | Null : field A
  | Present (a : A) : field A.
Global Arguments Undefined {A}.
Global Arguments Null {A}.
Global Arguments Present {A} a.

(** *** Numbers *)

Inductive number : Type :=
  | Num (q : Qc)
  | NaN.

Definition Qc_ltb (a b : Qc) : bool :=
  match a ?= b with
  | Lt => true
  | _ => false
  end.

Definition Qc_eqb (a b : Qc) : bool :=
  match a ?= b with
  | Eq => true
  | _ => false
  end.

Definition add (a b : number) : number :=
  match a, b with
  | Num x, Num y => Num (x + y)
  | _, _ => NaN
  end.

Definition sub (a b : number) : number :=
  match a, b with
  | Num x, Num y => Num (x - y)
  | _, _ => NaN
  end.

Definition mul (a b : number) : number :=
  match a, b with
  | Num x, Num y => Num (x * y)
  | _, _ => NaN
  end.

(** [0 / 0] is [NaN].  [x / 0] for another [x] is an infinity in
    JavaScript; the model has no infinities and answers [NaN] there
    too.  Every division of the modelled code is guarded against a zero
    divisor. *)
Definition div (a b : number) : number :=
  match a, b with
  | Num x, Num y => if Qc_eqb y 0 then NaN else Num (x / y)
  | _, _ => NaN
  end.

(** [a > b]: false as soon as one side is [NaN] *)
Definition gt (a b : number) : bool :=
  match a, b with
  | Num x, Num y => Qc_ltb y x
  | _, _ => false
  end.

(** [a < b] *)
Definition lt (a b : number) : bool := gt b a.

(** Truthiness of a number: [0] and [NaN] are falsy. *)
Definition truthy_number (a : number) : bool :=
  match a with
  | Num x => negb (Qc_eqb x 0)
  | NaN => false
  end.

(** [x || 0] on a numeric field *)
Definition or_zero (x : field number) : number :=
  match x with
  | Present a => if truthy_number a then a else Num 0
  | Undefined | Null => Num 0
  end.

(** [x || []] on an array field: an array is always truthy *)
Definition or_empty {A} (x : field (list A)) : list A :=
  match x with
  | Present l => l
  | Undefined | Null => []
  end.

(** *** Strings *)

Definition code (c : ascii) : N := N_of_ascii c.

Definition in_range (lo hi : N) (c : ascii) : bool :=
  ((lo <=? code c) && (code c <=? hi))%N.

(** [toLowerCase] on one code unit: A-Z, and the Latin-1 capitals
    U+00C0..U+00DE except the multiplication sign U+00D7. *)
Definition lower_char (c : ascii) : ascii :=
  if in_range 65 90 c || (in_range 192 222 c && negb (code c =? 215)%N)
  then ascii_of_N (code c + 32)
  else c.

Fixpoint toLowerCase (s : string) : string :=
  match s with
  | EmptyString => EmptyString
  | String c s' => String (lower_char c) (toLowerCase s')
  end.

(** White space of the language ([\s] and [trim]): TAB, LF, VT, FF, CR,
    SP and NBSP. *)
Definition is_space (c : ascii) : bool :=
  in_range 9 13 c || (code c =? 32)%N || (code c =? 160)%N.

Fixpoint trimStart (s : string) : string :=
  match s with
  | EmptyString => EmptyString
  | String c s' => if is_space c then trimStart s' else s
  end.

(** [trimEnd] keeps a character when it is no white space or when
    something remains after it. *)
Fixpoint trimEnd (s : string) : string :=
  match s with
  | EmptyString => EmptyString
  | String c s' =>
      match trimEnd s' with
      | EmptyString => if is_space c then EmptyString else String c EmptyString
      | t => String c t
      end
  end.

Definition trim (s : string) : string := trimEnd (trimStart s).

(** The class [[a-z0-9]] *)
Definition is_alnum (c : ascii) : bool :=
  in_range 97 122 c || in_range 48 57 c.

(** [s.replace(/[^a-z0-9]/g, '')] *)
Fixpoint strip_non_alnum (s : string) : string :=
  match s with
  | EmptyString => EmptyString
  | String c s' =>
      if is_alnum c then String c (strip_non_alnum s') else strip_non_alnum s'
  end.

(** [s.includes(sub)] *)
Fixpoint includes (s sub : string) : bool :=
  String.prefix sub s ||
  match s with
  | EmptyString => false
  | String _ s' => includes s' sub
  end.

(** [s.split(/\s+/)].  [tok] is the piece being read and [ws] tells
    that the previous character was white space: a run of white space
    closes the piece once, and the end of the string closes the last
    piece, which is empty after trailing white space; the first piece is
    empty before leading white space. *)
Fixpoint split_go (s tok : string) (ws : bool) : list string :=
  match s with
  | EmptyString => [tok]
  | String c s' =>
      if is_space c
      then (if ws then split_go s' EmptyString true
            else tok :: split_go s' EmptyString true)
      else split_go s' (tok +:+ String c EmptyString) false
  end.

Definition split_ws (s : string) : list string := split_go s EmptyString false.

(** *** Sets of strings: [new Set(array)]

    A [Set] iterates in insertion order; it is a list without
    duplicates, each [add] appending a value that is not yet there. *)

Definition has (s : list string) (x : string) : bool := bool_decide (x ∈ s).

Definition set_add (s : list string) (x : string) : list string :=
  if has s x then s else s ++ [x].

Definition new_Set (l : list string) : list string := fold_left set_add l [].

Definition set_size (s : list string) : nat := length s.

End JS.

Import JS.

(** ** The data model (types.ts is not part of the sources; the fields
    are those the components read and the specification lists) *)

Record LineItem := {
  itemId : string;
  item_name : string;
  quantity : field number;
  unit_cost_sar : field number;
  client_price_sar : field number;
  costType : field string;
  description : field string
}.

Record EventItem := {
  eventId : string;
  name : string;
  clientName : string;
  clientId : field string;
  clientContact : string;
  date : string;
  location : string;
  guestCount : number;
  status : string;
  paymentStatus : string;
  salespersonId : string;
  commissionRate : field number;
  commissionPaid : field bool;
  cost_tracker : field (list LineItem);
  eventType : string
}.

Record Client := {
  client_id : string;
  companyName : string;
  primaryContactName : string;
  email : string;
  clientStatus : string;
  createdAt : string;
  lastModifiedAt : string;
  internalNotes : field string;
  address : field string
}.

(** Decimal literals of the source *)
Definition decimal (n : Z) (d : positive) : Qc := Q2Qc (n # d).
Definition Qc_of_nat (n : nat) : Qc := Qc_of_Z (Z.of_nat n).

(** ** ClientValidationModal *)

Module ClientValidationModal.

Record UnlinkedEvent := {
  event : EventItem;
  suggestedMatch : option Client;
  matchScore : Qc
}.

(** No operation of [calculateMatchScore] can produce [NaN]: the only
    division is by a size that is at least the size of a non-empty
    intersection.  Scores are therefore plain rationals. *)
Definition calculateMatchScore (target candidate : string) : Qc :=
  let s1 := strip_non_alnum (toLowerCase target) in
  let s2 := strip_non_alnum (toLowerCase candidate) in
  if String.eqb s1 s2 then 1
  else if includes s1 s2 || includes s2 s1 then decimal 8 10
  else
    let tokens1 := new_Set (split_ws (toLowerCase target)) in
    let tokens2 := new_Set (split_ws (toLowerCase candidate)) in
    let intersection := new_Set (filter (λ x, has tokens2 x = true) tokens1) in
    if (0 <? set_size intersection)%nat
    then decimal 5 10 +
         (Qc_of_nat (set_size intersection) /
          Qc_of_nat (Nat.max (set_size tokens1) (set_size tokens2))) * decimal 4 10
    else 0.

Record BestMatch := {
  client : option Client;
  score : Qc
}.

Definition findBestMatch (name : string) (clientList : list Client) : BestMatch :=
  fold_left
    (λ best client,
       let s := calculateMatchScore name (companyName client) in
       if Qc_ltb (score best) s
       then {| client := Some client; score := s |}
       else best)
    clientList
    {| client := None; score := 0 |}.

(** [clients.find(c => c.companyName.trim().toLowerCase() ===
    event.clientName.trim().toLowerCase())] *)
Definition exactMatch (clients : list Client) (event : EventItem) : option Client :=
  List.find
    (λ c, String.eqb (toLowerCase (trim (companyName c)))
                     (toLowerCase (trim (clientName event))))
    clients.

(** The body of the effect on [events, clients, ignoredIds]: the array
    [unlinked] that it stores in the state [unlinkedEvents].  The
    specification calls it [findUnresolved]. *)
Definition findUnresolved (events : list EventItem) (clients : list Client)
    (ignoredIds : list string) : list UnlinkedEvent :=
  fold_left
    (λ (unlinked : list UnlinkedEvent) event,
       match exactMatch clients event with
       | Some _ => unlinked
       | None =>
           if negb (has ignoredIds (eventId event))
           then
             let best := findBestMatch (clientName event) clients in
             (unlinked ++ [{| event := event;
                              suggestedMatch := client best;
                              matchScore := score best |}])%list
           else unlinked
       end)
    events [].

(** [currentItem.suggestedMatch && currentItem.matchScore > 0.4]: the
    condition under which the suggestion card is rendered. *)
Definition confident (currentItem : UnlinkedEvent) : bool :=
  match suggestedMatch currentItem with
  | Some _ => Qc_ltb (decimal 4 10) (matchScore currentItem)
  | None => false
  end.

(** The fields of [Partial<EventItem>] that [handleLink] passes to
    [onUpdateEvent] *)
Record EventPatch := {
  patch_clientName : string;
  patch_clientContact : string
}.

(** [Omit<Client, 'id'>] *)
Record ClientData := {
  data_companyName : string;
  data_primaryContactName : string;
  data_email : string;
  data_clientStatus : string;
  data_createdAt : string;
  data_lastModifiedAt : string;
  data_internalNotes : field string;
  data_address : field string
}.

(** [handleLink]: the call [onUpdateEvent(eventId, patch)] it makes, if
    any. *)
Definition handleLink (clients : list Client) (currentItem : option UnlinkedEvent)
    (clientName : string) : option (string * EventPatch) :=
  match currentItem with
  | None => None
  | Some item =>
      let existingClient :=
        List.find (λ c, String.eqb (companyName c) clientName) clients in
      let contact := clientContact (event item) in
      Some (eventId (event item),
            {| patch_clientName := clientName;
               patch_clientContact :=
                 match existingClient with
                 | Some c =>
                     if String.eqb contact "TBD" || String.eqb contact ""
                     then primaryContactName c
                     else contact
                 | None => contact
                 end |})
  end.

(** [handleCreate]: the call [onAddClient(data)] it makes, if any.
    [now] and [now'] are the results of the two calls
    [new Date().toISOString()]. *)
Definition handleCreate (now now' : string) (currentItem : option UnlinkedEvent)
    : option ClientData :=
  match currentItem with
  | None => None
  | Some item =>
      let e := event item in
      Some {| data_companyName := clientName e;
              data_primaryContactName :=
                if String.eqb (clientContact e) "" then "Primary Contact"
                else clientContact e;
              data_email := "pending@update.com";
              data_clientStatus := "Active";
              data_createdAt := now;
              data_lastModifiedAt := now';
              data_internalNotes :=
                Present ("Auto-created from event: " +:+ name e);
              data_address :=
                if String.eqb (location e) "TBD" then Undefined
                else Present (location e) |}
  end.

(** [handleIgnore]: the new value of [ignoredIds],
    [new Set(prev).add(currentItem.event.eventId)]. *)
Definition handleIgnore (ignoredIds : list string)
    (currentItem : option UnlinkedEvent) : list string :=
  match currentItem with
  | None => ignoredIds
  | Some item => set_add ignoredIds (eventId (event item))
  end.

(** *** The state of the component and its navigation *)

Record ModalState := {
  unlinkedEvents : list UnlinkedEvent;
  currentIndex : nat;
  isComplete : bool;
  ignoredIds : list string
}.

(** [unlinkedEvents[currentIndex]]: [undefined] out of range *)
Definition currentItem (st : ModalState) : option UnlinkedEvent :=
  unlinkedEvents st !! currentIndex st.

(** [next]: it reads [currentIndex] and [unlinkedEvents] of the render
    in which the handler was created. *)
Definition next (st : ModalState) : ModalState :=
  if (Z.of_nat (currentIndex st) <? Z.of_nat (length (unlinkedEvents st)) - 1)%Z
  then {| unlinkedEvents := unlinkedEvents st;
          currentIndex := S (currentIndex st);
          isComplete := isComplete st;
          ignoredIds := ignoredIds st |}
  else {| unlinkedEvents := unlinkedEvents st;
          currentIndex := currentIndex st;
          isComplete := true;
          ignoredIds := ignoredIds st |}.

(** The handler of "Skip this event for now": [handleIgnore] on the
    state, [setIgnoredIds] followed by [next()]. *)
Definition skip (st : ModalState) : ModalState :=
  let st' := next st in
  {| unlinkedEvents := unlinkedEvents st';
     currentIndex := currentIndex st';
     isComplete := isComplete st';
     ignoredIds := handleIgnore (ignoredIds st) (currentItem st) |}.

(** [handleRefresh] *)
Definition handleRefresh (st : ModalState) : ModalState :=
  {| unlinkedEvents := unlinkedEvents st;
     currentIndex := 0;
     isComplete := false;
     ignoredIds := [] |}.

(** The effect on [events, clients, ignoredIds], run after the render
    that follows a change of one of them: it stores the new array and
    sets [isComplete] when the array is empty and there are events. *)
Definition effect (events : list EventItem) (clients : list Client)
    (st : ModalState) : ModalState :=
  let unlinked := findUnresolved events clients (ignoredIds st) in
  {| unlinkedEvents := unlinked;
     currentIndex := currentIndex st;
     isComplete :=
       if (length unlinked =? 0)%nat && (0 <? length events)%nat
       then true else isComplete st;
     ignoredIds := ignoredIds st |}.

(** What the component renders: the "Database Clean" panel, nothing
    ([return null]), or the card of the current item. *)
Inductive View :=
  | DatabaseClean
  | Blank
  | Card (item : UnlinkedEvent).

Definition render (st : ModalState) : View :=
  if isComplete st || (length (unlinkedEvents st) =? 0)%nat then DatabaseClean
  else match currentItem st with
       | None => Blank
       | Some item => Card item
       end.

End ClientValidationModal.

(** ** FinancialStudio on typed records, in exact arithmetic *)

Module FinancialStudio.

(** [EventItem & { revenue, cost, profit, margin }], the type of the
    derived event: the declared fields of the event and the four derived
    numbers.  The object that the spread builds, with whatever
    properties the event carries, is that of [FinancialStudio64]. *)
Record EventFinancial := {
  ef_event :> EventItem;
  revenue : number;
  cost : number;
  profit : number;
  margin : number
}.

(** The callback of [events.map] in [eventFinancials]; the
    specification calls it [withFinancials]. *)
Definition withFinancials (event : EventItem) : EventFinancial :=
  let revenue :=
    fold_left
      (λ sum item, add sum (mul (or_zero (client_price_sar item))
                                (or_zero (quantity item))))
      (or_empty (cost_tracker event)) (Num 0) in
  let cost :=
    fold_left
      (λ sum item, add sum (mul (or_zero (unit_cost_sar item))
                                (or_zero (quantity item))))
      (or_empty (cost_tracker event)) (Num 0) in
  let profit := sub revenue cost in
  let margin :=
    if gt revenue (Num 0)
    then mul (div profit revenue) (Num (Qc_of_Z 100))
    else Num 0 in
  {| ef_event := event; revenue := revenue; cost := cost;
     profit := profit; margin := margin |}.

(** *** Sorting *)

Inductive SortDirection := asc | desc.

Record SortConfig := {
  key : string;
  direction : SortDirection
}.

(** The primitive values that a sort key can select *)
Inductive jsvalue :=
  | VUndefined
  | VNull
  | VBool (b : bool)
  | VNumber (n : number)
  | VString (s : string).

Definition of_field {A} (inj : A → jsvalue) (f : field A) : jsvalue :=
  match f with
  | Undefined => VUndefined
  | Null => VNull
  | Present a => inj a
  end.

(** [a[key]] on an element of [eventFinancials], for the scalar
    properties; any other name is read as a missing property. *)
Definition event_prop (key : string) (a : EventFinancial) : jsvalue :=
  if String.eqb key "eventId" then VString (eventId a)
  else if String.eqb key "name" then VString (name a)
  else if String.eqb key "clientName" then VString (clientName a)
  else if String.eqb key "clientId" then of_field VString (clientId a)
  else if String.eqb key "clientContact" then VString (clientContact a)
  else if String.eqb key "date" then VString (date a)
  else if String.eqb key "location" then VString (location a)
  else if String.eqb key "guestCount" then VNumber (guestCount a)
  else if String.eqb key "status" then VString (status a)
  else if String.eqb key "paymentStatus" then VString (paymentStatus a)
  else if String.eqb key "salespersonId" then VString (salespersonId a)
  else if String.eqb key "commissionRate" then of_field VNumber (commissionRate a)
  else if String.eqb key "commissionPaid" then of_field VBool (commissionPaid a)
  else if String.eqb key "eventType" then VString (eventType a)
  else if String.eqb key "revenue" then VNumber (revenue a)
  else if String.eqb key "cost" then VNumber (cost a)
  else if String.eqb key "profit" then VNumber (profit a)
  else if String.eqb key "margin" then VNumber (margin a)
  else VUndefined.

(** [ServiceItem] is declared in types.ts; the comparator reads it only
    through [a[key]], as a map from property names to values. *)
Definition service_prop (key : string) (a : gmap string jsvalue) : jsvalue :=
  default VUndefined (a !! key).

Definition truthy (v : jsvalue) : bool :=
  match v with
  | VUndefined | VNull => false
  | VBool b => b
  | VNumber n => truthy_number n
  | VString s => negb (String.eqb s "")
  end.

Section Comparison.

(** The conversion of a string to a number, which the language applies
    when a string meets a value of another type under [<] or [>]. *)
Variable StringToNumber : string → number.

Definition ToNumber (v : jsvalue) : number :=
  match v with
  | VUndefined => NaN
  | VNull => Num 0
  | VBool b => Num (if b then 1 else 0)
  | VNumber n => n
  | VString s => StringToNumber s
  end.

(** [a < b]: two strings are compared by code units, anything else as
    numbers. *)
Definition less_than (a b : jsvalue) : bool :=
  match a, b with
  | VString x, VString y => String.ltb x y
  | _, _ => lt (ToNumber a) (ToNumber b)
  end.

(** The comparator of [sortedEvents] *)
Definition compareEvents (sortConfig : SortConfig) (a b : EventFinancial) : Z :=
  let key := key sortConfig in
  if less_than (event_prop key a) (event_prop key b)
  then match direction sortConfig with asc => -1 | desc => 1 end
  else if less_than (event_prop key b) (event_prop key a)
  then match direction sortConfig with asc => 1 | desc => -1 end
  else 0.

(** [if (typeof val === 'string') val = val.toLowerCase()] *)
Definition lower_if_string (v : jsvalue) : jsvalue :=
  match v with
  | VString s => VString (toLowerCase s)
  | _ => v
  end.

(** The comparator of [sortedServices] *)
Definition compareServices (sortConfig : SortConfig)
    (a b : gmap string jsvalue) : Z :=
  let key := key sortConfig in
  let valA :=
    if truthy (service_prop key a) then service_prop key a
    else VNumber (Num 0) in
  let valB :=
    if truthy (service_prop key b) then service_prop key b
    else VNumber (Num 0) in
  let valA := lower_if_string valA in
  let valB := lower_if_string valB in
  if less_than valA valB
  then match direction sortConfig with asc => -1 | desc => 1 end
  else if less_than valB valA
  then match direction sortConfig with asc => 1 | desc => -1 end
  else 0.

(** [Array.prototype.sort] is stable; it is computed by insertion, an
    element going before the first one that it does not follow. *)
Fixpoint insert_by {A} (cmp : A → A → Z) (x : A) (l : list A) : list A :=
  match l with
  | [] => [x]
  | y :: l' => if (cmp x y <=? 0)%Z then x :: y :: l' else y :: insert_by cmp x l'
  end.

Definition sort_by {A} (cmp : A → A → Z) (l : list A) : list A :=
  foldr (insert_by cmp) [] l.

Definition sortedEvents (eventFinancials : list EventFinancial)
    (sortConfig : option SortConfig) (activeTab : string) : list EventFinancial :=
  match sortConfig with
  | Some cfg =>
      if String.eqb activeTab "event deep dive"
      then sort_by (compareEvents cfg) eventFinancials
      else eventFinancials
  | None => eventFinancials
  end.

Definition sortedServices (services : list (gmap string jsvalue))
    (sortConfig : option SortConfig) (activeTab : string)
    : list (gmap string jsvalue) :=
  match sortConfig with
  | Some cfg =>
      if String.eqb activeTab "pricing & margin analysis"
      then sort_by (compareServices cfg) services
      else services
  | None => services
  end.

End Comparison.

(** [requestSort]: the value it passes to [setSortConfig] *)
Definition requestSort (sortConfig : option SortConfig) (key : string)
    : option SortConfig :=
  let direction :=
    match sortConfig with
    | Some cfg =>
        if String.eqb (FinancialStudio.key cfg) key &&
           match FinancialStudio.direction cfg with asc => true | desc => false end
        then desc
        else asc
    | None => asc
    end in
  Some {| key := key; direction := direction |}.

End FinancialStudio.

(** ** IEEE 754 double precision

    The numbers of the engine, for the derivations whose result depends
    on rounding and overflow.  [spec_float] is the specification of
    binary floating point of the standard library; a double is one of
    its values that satisfies [valid_binary prec emax], and the four
    operations round to nearest, ties to even. *)

Module Binary64.

Definition prec : Z := 53.
Definition emax : Z := 1024.

Definition double : Type := spec_float.

Definition NaN : double := S754_nan.
Definition zero : double := S754_zero false.

(** The double nearest to an integer: an integer literal of the source *)
Definition of_Z (z : Z) : double := binary_normalize prec emax z 0 false.

Definition add : double → double → double := SFadd prec emax.
Definition sub : double → double → double := SFsub prec emax.
Definition mul : double → double → double := SFmul prec emax.
Definition div : double → double → double := SFdiv prec emax.

(** [a > b]: false as soon as one side is [NaN] *)
Definition gt (a b : double) : bool := SFltb b a.



End Binary64.

(** ** Values and objects

    The values that a property of an object can hold.  An object is the
    finite map of its own properties. *)

Module Dynamic.

Import Binary64.

#[warnings="-register-all"]
Inductive value : Type :=
  | JUndefined
  | JNull
  | JBoolean (b : bool)
  | JNumber (x : double)
  | JString (s : string)
  | JArray (elements : list value)
  | JObject (properties : gmap string value).

Abbreviation object := (gmap string value).

(** [o.k] on an object: a property that is not there reads [undefined] *)
Definition get (o : object) (k : string) : value := default JUndefined (o !! k).

(** [v.k] on any value, for a name [k] that no prototype defines:
    reading a property of [undefined] or [null] throws a TypeError
    ([None]); a primitive value and an array hold no such property. *)
Definition member (v : value) (k : string) : option value :=
  match v with
  | JUndefined | JNull => None
  | JObject o => Some (get o k)
  | JBoolean _ | JNumber _ | JString _ | JArray _ => Some JUndefined
  end.

(** Truthiness: [undefined], [null], [false], the two zeros, [NaN] and
    the empty string are falsy. *)
Definition truthy (v : value) : bool :=
  match v with
  | JUndefined | JNull => false
  | JBoolean b => b
  | JNumber (S754_zero _) | JNumber S754_nan => false
  | JNumber _ => true
  | JString s => negb (String.eqb s "")
  | JArray _ | JObject _ => true
  end.

(** [a || b] *)
Definition or_else (a b : value) : value := if truthy a then a else b.

(** [a ?? b] *)
Definition nullish_else (a b : value) : value :=
  match a with
  | JUndefined | JNull => b
  | _ => a
  end.

(** [v === s] for a string [s] *)
Definition is_string (v : value) (s : string) : bool :=
  match v with
  | JString t => String.eqb t s
  | _ => false
  end.

(** The value of a numeric field of a typed record *)
Definition of_field (x : field double) : value :=
  match x with
  | Undefined => JUndefined
  | Null => JNull
  | Present a => JNumber a
  end.

Section Conversion.

(** The conversion to a number of a string, an array or an object
    (StringToNumber, after ToPrimitive for an array or an object),
    which the model leaves open. *)
Variable ToNumber_other : value → double.

(** The conversion that the arithmetic operators and [>] apply to an
    operand *)
Definition ToNumber (v : value) : double :=
  match v with
  | JUndefined => NaN
  | JNull => zero
  | JBoolean b => if b then of_Z 1 else zero
  | JNumber x => x
  | JString _ | JArray _ | JObject _ => ToNumber_other v
  end.

End Conversion.

End Dynamic.

(** ** FinancialStudio on objects, in double precision
    (components/FinancialStudio.tsx, here src/unnamed/part_001)

    The events are the objects that the component receives, with
    whatever properties they carry; the line items are the elements of
    their [cost_tracker]. *)

Module FinancialStudio64.

Import Binary64 Dynamic.

Section Derivation.

Variable ToNumber_other : value → double.

(** The callback of [reduce]:
    [(sum, item) => sum + (item[key] || 0) * (item.quantity || 0)] *)
Definition line_total (key : string) (sum : double) (item : value)
    : option double :=
  price ← member item key;
  quantity ← member item "quantity";
  Some (add sum (mul (ToNumber ToNumber_other (or_else price (JNumber zero)))
                     (ToNumber ToNumber_other (or_else quantity (JNumber zero))))).

(** [v.reduce(f, init)]: a value that is no array has no method
    [reduce], and the call throws a TypeError ([None]). *)
Definition reduce (v : value) (f : double → value → option double)
    (init : double) : option double :=
  match v with
  | JArray elements =>
      fold_left (λ acc item, sum ← acc; f sum item) elements (Some init)
  | _ => None
  end.

(** The callback of [events.map] in [eventFinancials]; the
    specification calls it [withFinancials].  The object
    [{ ...event, revenue, cost, profit, margin }] holds the properties
    of [event], then the four derived ones, a later one replacing an
    earlier one of the same name. *)
Definition withFinancials (event : object) : option object :=
  revenue ← reduce (or_else (get event "cost_tracker") (JArray []))
                   (line_total "client_price_sar") zero;
  cost ← reduce (or_else (get event "cost_tracker") (JArray []))
                (line_total "unit_cost_sar") zero;
  let profit := sub revenue cost in
  let margin :=
    if gt revenue zero then mul (div profit revenue) (of_Z 100) else zero in
  Some (<["margin" := JNumber margin]>
          (<["profit" := JNumber profit]>
             (<["cost" := JNumber cost]>
                (<["revenue" := JNumber revenue]> event)))).

Definition eventFinancials (events : list object) : option (list object) :=
  mapM withFinancials events.

(** *** Commissions *)

(** [User], by the properties that the summary reads *)
Record User := {
  userId : string;
  role : string;
  commissionRate : field double
}.

Record CommissionSummary := {
  user : User;
  totalCommission : double;
  paidCommission : double;
  pendingCommission : double;
  eventCount : nat
}.

(** One step of [userEvents.forEach] on the two accumulators *)
Definition commission_step (user : User)
    (acc : double * double) (event : object) : double * double :=
  let '(totalCommission, paidCommission) := acc in
  if gt (ToNumber ToNumber_other (get event "profit")) zero
  then
    let commissionRate :=
      div (ToNumber ToNumber_other
             (nullish_else (get event "commissionRate")
                (nullish_else (of_field (commissionRate user)) (JNumber zero))))
          (of_Z 100) in
    let amount :=
      mul (ToNumber ToNumber_other (get event "profit")) commissionRate in
    (add totalCommission amount,
     if truthy (get event "commissionPaid")
     then add paidCommission amount
     else paidCommission)
  else (totalCommission, paidCommission).

(** The array [summary] of [commissionData]; the specification calls
    it [commissionSummary]. *)
Definition commissionSummary (users : list User)
    (eventFinancials : list object) : list CommissionSummary :=
  let salesUsers := filter (λ u, String.eqb (role u) "Sales" = true) users in
  map
    (λ user,
       let userEvents :=
         filter (λ e, is_string (get e "salespersonId") (userId user) = true)
                eventFinancials in
       let '(totalCommission, paidCommission) :=
         fold_left (commission_step user) userEvents (zero, zero) in
       {| user := user;
          totalCommission := totalCommission;
          paidCommission := paidCommission;
          pendingCommission := sub totalCommission paidCommission;
          eventCount := length userEvents |})
    salesUsers.

End Derivation.

End FinancialStudio64.

(** ** QuotationGenerator (src/src/components/ServiceDetailModal.tsx,
    lines 198-611) *)

Module QuotationGenerator.

(** [includedItems[itemId]] as a condition: a missing key is falsy *)
Definition included (includedItems : gmap string bool) (itemId : string) : bool :=
  default false (includedItems !! itemId).

(** The initial value of [includedItems] *)
Definition initial_includedItems (cost_tracker : field (list LineItem))
    : gmap string bool :=
  fold_left (λ initial item, <[itemId item := true]> initial)
            (or_empty cost_tracker) ∅.

Definition filteredLineItems (lineItems : list LineItem)
    (includedItems : gmap string bool) : list LineItem :=
  filter (λ item, included includedItems (itemId item) = true) lineItems.

(** [handleUpdateItem]: the new value of [lineItems] *)
Definition handleUpdateItem (updatedItem : LineItem) (lineItems : list LineItem)
    : list LineItem :=
  map (λ item, if String.eqb (itemId item) (itemId updatedItem)
               then updatedItem else item)
      lineItems.

(** [handleRemoveItem]: the new values of [lineItems] and [includedItems] *)
Definition handleRemoveItem (id : string) (lineItems : list LineItem)
    (includedItems : gmap string bool) : list LineItem * gmap string bool :=
  (filter (λ item, itemId item ≠ id) lineItems, delete id includedItems).

(** [toggleItemInclusion]: the new value of [includedItems] *)
Definition toggleItemInclusion (id : string) (includedItems : gmap string bool)
    : gmap string bool :=
  <[id := negb (included includedItems id)]> includedItems.

End QuotationGenerator.

(** ** QuotationPreview (src/src/components/ServiceDetailModal.tsx,
    lines 900-1152) *)

Module QuotationPreview.

(** A numeric field under an arithmetic operator: [undefined] is [NaN]
    and [null] is 0. *)
Definition operand (x : field number) : number :=
  match x with
  | Undefined => NaN
  | Null => Num 0
  | Present n => n
  end.

(** The group of an item, as an index in the order in which the keys of
    [groups] are created *)
Definition group_of (item : LineItem) : nat :=
  match costType item with
  | Present s =>
      if String.eqb s "Fixed" then 0%nat
      else if String.eqb s "Variable" then 1%nat
      else if String.eqb s "Compliance" then 2%nat
      else 3%nat
  | Undefined | Null => 3%nat
  end.

(** [groups[key].push(item)] on the four arrays, kept in the order of
    the keys *)
Definition push_group (groups : list (string * list LineItem)) (item : LineItem)
    : list (string * list LineItem) :=
  alter (λ g, (g.1, (g.2 ++ [item])%list)) (group_of item) groups.

Definition groupedItems (lineItems : list LineItem)
    : list (string * list LineItem) :=
  let groups :=
    fold_left push_group lineItems
      [("Fixed Costs", []); ("Variable Costs", []);
       ("Mandatory Compliance Costs", []); ("Other Items", [])] in
  filter (λ g, (0 < length g.2)%nat) groups.

Record Calculations := {
  subtotal : number;
  salesTax : number;
  other : number;
  total : number
}.

(** [calculations], from the line items, [details.taxRate] and
    [details.otherCharges.amount] *)
Definition calculations (lineItems : list LineItem) (taxRate : number)
    (amount : field number) : Calculations :=
  let subtotal :=
    fold_left
      (λ acc item, add acc (mul (operand (client_price_sar item))
                                (operand (quantity item))))
      lineItems (Num 0) in
  let salesTax := mul subtotal (div taxRate (Num (Qc_of_Z 100))) in
  let other := or_zero amount in
  let total := add (add subtotal salesTax) other in
  {| subtotal := subtotal; salesTax := salesTax; other := other; total := total |}.

End QuotationPreview.

(** ** The state store

    The component receives [onUpdateEvent] and [onAddClient] from
    App.tsx, which is not part of the sources. *)

Module Store.

Import ClientValidationModal.

Definition apply_patch (e : EventItem) (p : EventPatch) : EventItem :=
  {| eventId := eventId e;
     name := name e;
     clientName := patch_clientName p;
     clientId := clientId e;
     clientContact := patch_clientContact p;
     date := date e;
     location := location e;
     guestCount := guestCount e;
     status := status e;
     paymentStatus := paymentStatus e;
     salespersonId := salespersonId e;
     commissionRate := commissionRate e;
     commissionPaid := commissionPaid e;
     cost_tracker := cost_tracker e;
     eventType := eventType e |}.

(** Modelled from the spec: [onUpdateEvent] of App.tsx, the patch-style
    update [updateEvent(id, partialFields)] of the state store, which
    merges the given fields into the event of that id. *)
Definition updateEvent (id : string) (p : EventPatch)
    (events : list EventItem) : list EventItem :=
  map (λ e, if String.eqb (eventId e) id then apply_patch e p else e) events.

(** Modelled from the spec: [onAddClient] of App.tsx, the update
    [addClient(fields)] of the state store, which adds a client with
    the given fields under an id [newId] of its choice. *)
Definition addClient (newId : string) (d : ClientData)
    (clients : list Client) : list Client :=
  (clients ++
   [{| client_id := newId;
       companyName := data_companyName d;
       primaryContactName := data_primaryContactName d;
       email := data_email d;
       clientStatus := data_clientStatus d;
       createdAt := data_createdAt d;
       lastModifiedAt := data_lastModifiedAt d;
       internalNotes := data_internalNotes d;
       address := data_address d |}])%list.

(** What the store holds after a handler has run: [handleLink] and
    [handleCreate] call the store, which does nothing when the handler
    made no call. *)
Definition after_link (clients : list Client) (currentItem : option UnlinkedEvent)
    (clientName : string) (events : list EventItem) : list EventItem :=
  match handleLink clients currentItem clientName with
  | Some (id, p) => updateEvent id p events
  | None => events
  end.

Definition after_create (now now' newId : string)
    (currentItem : option UnlinkedEvent) (clients : list Client) : list Client :=
  match handleCreate now now' currentItem with
  | Some d => addClient newId d clients
  | None => clients
  end.

End Store.

(** ** The specification's reading of the match score and of the sums *)

Module Spec.

(** [sub] occurs in [s] *)
Definition substring (sub s : string) : Prop :=
  ∃ pre post, s = pre +:+ sub +:+ post.

(** Lowercase and strip every non-alphanumeric character *)
Definition stripped (s : string) : string := strip_non_alnum (toLowerCase s).

(** The set of whitespace-delimited tokens of the lowercased string *)
Definition tokens (s : string) : gset string :=
  list_to_set (split_ws (toLowerCase s)).

Definition overlap (target candidate : string) : nat :=
  size (tokens target ∩ tokens candidate).

Definition token_score (target candidate : string) : Qc :=
  decimal 5 10 +
  (Qc_of_nat (overlap target candidate) /
   Qc_of_nat (Nat.max (size (tokens target)) (size (tokens candidate))))
  * decimal 4 10.

(** A numeric field, with a missing value read as [0] *)
Definition coerce (x : field number) : Qc :=
  match x with
  | Present (Num q) => q
  | _ => 0
  end.

Definition sum_Qc (l : list Qc) : Qc := foldr Qcplus 0 l.

Definition line_revenue (item : LineItem) : Qc :=
  coerce (client_price_sar item) * coerce (quantity item).

Definition line_cost (item : LineItem) : Qc :=
  coerce (unit_cost_sar item) * coerce (quantity item).

(** The specification's reading of the suggestion: [c] is the first
    client of the list that attains the maximum score against [name]. *)
Definition first_max (name : string) (clients : list Client) (c : Client) : Prop :=
  let s c := ClientValidationModal.calculateMatchScore name (companyName c) in
  ∃ before after,
    clients = (before ++ c :: after)%list ∧
    (∀ c', c' ∈ before → s c' < s c) ∧
    (∀ c', c' ∈ after → s c' ≤ s c).

(** An event is resolved when some client has its name up to case and
    surrounding white space. *)
Definition normalize (s : string) : string := toLowerCase (trim s).

End Spec.

(** ** The specification's reading of the financial derivation, in
    double precision *)

Module Spec64.

Import Binary64 Dynamic FinancialStudio64.


(** A property that holds a number or is missing *)
Definition number_or_missing (v : option value) : Prop :=
  match v with
  | None | Some JUndefined | Some JNull | Some (JNumber _) => True
  | _ => False
  end.

(** A property that holds a boolean or is missing *)
Definition boolean_or_missing (v : option value) : Prop :=
  match v with
  | None | Some JUndefined | Some JNull | Some (JBoolean _) => True
  | _ => False
  end.



(** The amount that a numeric field stands for: the number it holds,
    and 0 when the field is missing, undefined or null; [NaN] and the
    negative zero count as 0 as well. *)
Definition amount_of (item : object) (k : string) : double :=
  match item !! k with
  | Some (JNumber (S754_finite s m e)) => S754_finite s m e
  | Some (JNumber (S754_infinity s)) => S754_infinity s
  | _ => zero
  end.

(** A sum in double precision: the terms are added from the left,
    starting from 0. *)
Definition total (l : list double) : double := fold_left add l zero.

Definition line_revenue (item : object) : double :=
  mul (amount_of item "client_price_sar") (amount_of item "quantity").

Definition line_cost (item : object) : double :=
  mul (amount_of item "unit_cost_sar") (amount_of item "quantity").




(** *** Commissions *)

(** An element of [eventFinancials], as the summary expects it: a
    numeric profit, a numeric or missing [commissionRate], a boolean or
    missing [commissionPaid]. *)
Definition financial (e : object) : Prop :=
  (∃ p, e !! "profit" = Some (JNumber p)) ∧
  number_or_missing (e !! "commissionRate") ∧
  boolean_or_missing (e !! "commissionPaid").

Definition profit_of (e : object) : double :=
  match e !! "profit" with
  | Some (JNumber p) => p
  | _ => NaN
  end.

(** The event is one of the salesperson. *)
Definition owned (user : User) (e : object) : bool :=
  match e !! "salespersonId" with
  | Some (JString s) => bool_decide (s = userId user)
  | _ => false
  end.

(** The profit of the event is above 0. *)
Definition gains (e : object) : bool := SFltb zero (profit_of e).

(** The rate that applies: the rate of the event, else the rate of the
    user, else 0. *)
Definition rate (user : User) (e : object) : double :=
  match e !! "commissionRate" with
  | Some (JNumber r) => r
  | _ => match commissionRate user with
         | Present r => r
         | Undefined | Null => zero
         end
  end.

(** [rate = (...) / 100; amount = profit * rate] *)
Definition commission (user : User) (e : object) : double :=
  mul (profit_of e) (div (rate user e) (of_Z 100)).

(** The commission of the event is marked as paid. *)
Definition paid (e : object) : bool :=
  match e !! "commissionPaid" with
  | Some (JBoolean true) => true
  | _ => false
  end.

Definition summary_of (user : User) (events : list object) : CommissionSummary :=
  let mine := filter (λ e, owned user e = true) events in
  let earning := filter (λ e, gains e = true) mine in
  let commissions := total (map (commission user) earning) in
  let paid_commissions :=
    total (map (commission user) (filter (λ e, paid e = true) earning)) in
  {| user := user;
     totalCommission := commissions;
     paidCommission := paid_commissions;
     pendingCommission := sub commissions paid_commissions;
     eventCount := length mine |}.

End Spec64.

(** ** Auxiliary definitions for the proofs *)

Module Aux.

Import ClientValidationModal.

(** The test of the effect on one event *)
Definition unresolved (clients : list Client) (ignoredIds : list string)
    (event : EventItem) : bool :=
  match exactMatch clients event with
  | Some _ => false
  | None => negb (has ignoredIds (eventId event))
  end.

(** The entry that the effect pushes for an event *)
Definition entry (clients : list Client) (event : EventItem) : UnlinkedEvent :=
  let best := findBestMatch (clientName event) clients in
  {| event := event; suggestedMatch := client best; matchScore := score best |}.

(** One step of the loop of [findBestMatch] *)
Definition best_step (name : string) (best : BestMatch) (c : Client) : BestMatch :=
  let s := calculateMatchScore name (companyName c) in
  if Qc_ltb (score best) s then {| client := Some c; score := s |} else best.

(** What the loop of [findBestMatch] knows of the clients [seen] so far *)
Definition best_inv (name : string) (seen : list Client) (best : BestMatch) : Prop :=
  let s c := calculateMatchScore name (companyName c) in
  (∀ c, c ∈ seen → s c ≤ score best) ∧
  match client best with
  | Some c =>
      0 < score best ∧ s c = score best ∧
      ∃ before after,
        seen = (before ++ c :: after)%list ∧ (∀ c', c' ∈ before → s c' < s c)
  | None => score best = 0
  end.


End Aux.

(** ** Sample data *)

Module Sample.

Definition a_client (id companyName : string) : Client :=
  {| client_id := id;
     companyName := companyName;
     primaryContactName := "Contact";
     email := "info@example.com";
     clientStatus := "Active";
     createdAt := "2024-01-01";
     lastModifiedAt := "2024-01-01";
     internalNotes := Undefined;
     address := Undefined |}.

Definition an_event (id clientName salespersonId : string)
    (items : list LineItem) : EventItem :=
  {| eventId := id;
     name := "Gala";
     clientName := clientName;
     clientId := Undefined;
     clientContact := "TBD";
     date := "2024-05-01";
     location := "Riyadh";
     guestCount := Num (Qc_of_Z 100);
     status := "Confirmed";
     paymentStatus := "Unpaid";
     salespersonId := salespersonId;
     commissionRate := Undefined;
     commissionPaid := Undefined;
     cost_tracker := Present items;
     eventType := "Corporate" |}.

Definition an_item (price unit_cost qty : Z) : LineItem :=
  {| itemId := "i1";
     item_name := "Stage";
     quantity := Present (Num (Qc_of_Z qty));
     unit_cost_sar := Present (Num (Qc_of_Z unit_cost));
     client_price_sar := Present (Num (Qc_of_Z price));
     costType := Undefined;
     description := Undefined |}.

Definition named_event (id name : string) : EventItem :=
  {| eventId := id;
     name := name;
     clientName := "Acme";
     clientId := Undefined;
     clientContact := "TBD";
     date := "2024-05-01";
     location := "Riyadh";
     guestCount := Num (Qc_of_Z 100);
     status := "Confirmed";
     paymentStatus := "Unpaid";
     salespersonId := "u1";
     commissionRate := Undefined;
     commissionPaid := Undefined;
     cost_tracker := Present [];
     eventType := "Corporate" |}.

Definition named_service (name : string) : gmap string FinancialStudio.jsvalue :=
  {[ "name" := FinancialStudio.VString name ]}.

Definition an_item_called (id : string) (price unit_cost qty : Z) : LineItem :=
  {| itemId := id;
     item_name := "Stage";
     quantity := Present (Num (Qc_of_Z qty));
     unit_cost_sar := Present (Num (Qc_of_Z unit_cost));
     client_price_sar := Present (Num (Qc_of_Z price));
     costType := Undefined;
     description := Undefined |}.

(** Objects *)


Definition booking (id salespersonId : string) (items : list Dynamic.object)
    : Dynamic.object :=
  {[ "eventId" := Dynamic.JString id;
     "name" := Dynamic.JString "Gala";
     "clientName" := Dynamic.JString "Acme";
     "salespersonId" := Dynamic.JString salespersonId;
     "remarks" := Dynamic.JString "VIP";
     "tasks" := Dynamic.JArray
                  [Dynamic.JObject {[ "title" := Dynamic.JString "Book the hall" ]}];
     "cost_tracker" := Dynamic.JArray (Dynamic.JObject <$> items) ]}.

(** An element of [eventFinancials] with the given profit *)
Definition settled (id salespersonId : string) (profit : Z) : Dynamic.object :=
  {[ "eventId" := Dynamic.JString id;
     "salespersonId" := Dynamic.JString salespersonId;
     "profit" := Dynamic.JNumber (Binary64.of_Z profit) ]}.

Definition a_seller (id role : string) (rate : field Binary64.double)
    : FinancialStudio64.User :=
  {| FinancialStudio64.userId := id;
     FinancialStudio64.role := role;
     FinancialStudio64.commissionRate := rate |}.

End Sample.

(** * Properties *)

(** ** The primitives on examples *)

Example split_leading_trailing : split_ws " a  b " = [""; "a"; "b"; ""].
Proof. reflexivity. Qed.

Example split_empty : split_ws "" = [""].
Proof. reflexivity. Qed.

Example split_keeps_punctuation :
  split_ws (toLowerCase "Al-Noor Catering Est.") = ["al-noor"; "catering"; "est."].
Proof. reflexivity. Qed.

Example trim_both_ends : trim "  Al Noor  " = "Al Noor".
Proof. reflexivity. Qed.

Example strip_lowercased :
  strip_non_alnum (toLowerCase "Al-Noor Catering Est.") = "alnoorcateringest".
Proof. reflexivity. Qed.

Example includes_empty_needle : includes "acme" "" = true.
Proof. reflexivity. Qed.

Example new_Set_first_occurrences :
  new_Set ["a"; "b"; "a"; "c"; "b"] = ["a"; "b"; "c"].
Proof. reflexivity. Qed.

Example or_zero_missing :
  or_zero Undefined = Num 0 ∧ or_zero Null = Num 0 ∧ or_zero (Present NaN) = Num 0.
Proof. done. Qed.

Example mul_undefined_is_NaN : mul NaN (Num 1) = NaN.
Proof. reflexivity. Qed.

(** ** Numbers *)

Lemma Qc_ltb_lt (a b : Qc) : Qc_ltb a b = true ↔ a < b.
Proof.
  unfold Qc_ltb. rewrite Qclt_alt.
  destruct (a ?= b); split; congruence.
Qed.

Lemma Qc_ltb_nlt (a b : Qc) : Qc_ltb a b = false ↔ b ≤ a.
Proof.
  rewrite <- not_true_iff_false, Qc_ltb_lt. symmetry. apply Qcle_ngt.
Qed.

Lemma Qc_eqb_eq (a b : Qc) : Qc_eqb a b = true ↔ a = b.
Proof.
  unfold Qc_eqb. rewrite Qceq_alt.
  destruct (a ?= b); split; congruence.
Qed.

Lemma Qc_of_nat_pos (n : nat) : (0 < n)%nat → 0 < Qc_of_nat n.
Proof.
  intros Hn. unfold Qc_of_nat. rewrite <- Z2Qc_inj_0.
  apply (proj1 (Z2Qc_inj_lt 0 (Z.of_nat n))). lia.
Qed.

Lemma Qc_of_nat_le (n m : nat) : (n ≤ m)%nat → Qc_of_nat n ≤ Qc_of_nat m.
Proof.
  intros Hn. unfold Qc_of_nat.
  apply (proj1 (Z2Qc_inj_le (Z.of_nat n) (Z.of_nat m))). lia.
Qed.

(** A ratio [k / m] with [0 < k <= m] lies in (0, 1]. *)
Lemma ratio_bounds (k m : nat) :
  (0 < k)%nat → (k ≤ m)%nat →
  0 < Qc_of_nat k / Qc_of_nat m ∧ Qc_of_nat k / Qc_of_nat m ≤ 1.
Proof.
  intros Hk Hkm.
  assert (Hm : 0 < Qc_of_nat m) by (apply Qc_of_nat_pos; lia).
  assert (Hi : 0 < / Qc_of_nat m) by (by apply Qcinv_pos).
  split.
  - apply Qcmult_pos_pos; [by apply Qc_of_nat_pos | done].
  - unfold Qcdiv.
    rewrite <- (Qcmult_inv_r (Qc_of_nat m)).
    + apply Qcmult_le_mono_nonneg_r; [by apply Qclt_le_weak | by apply Qc_of_nat_le].
    + intros Heq. rewrite Heq in Hm. by apply (Qclt_not_eq 0 0).
Qed.

(** The value of the token branch lies in (0.5, 0.9]. *)
Lemma token_formula_bounds (r : Qc) :
  0 < r → r ≤ 1 →
  decimal 5 10 < decimal 5 10 + r * decimal 4 10 ∧
  decimal 5 10 + r * decimal 4 10 ≤ decimal 9 10.
Proof.
  intros Hr0 Hr1.
  assert (H4 : 0 < decimal 4 10) by (by apply Qc_ltb_lt).
  split.
  - rewrite <- (Qcplus_0_r (decimal 5 10)) at 1.
    apply Qcplus_lt_mono_l. by apply Qcmult_pos_pos.
  - replace (decimal 9 10) with (decimal 5 10 + 1 * decimal 4 10)
      by (by apply Qc_is_canon).
    apply Qcplus_le_mono_l.
    apply Qcmult_le_mono_nonneg_r; [by apply Qclt_le_weak | done].
Qed.

(** ** Strings *)

Lemma append_String (c : ascii) (s t : string) :
  String c s +:+ t = String c (s +:+ t).
Proof. reflexivity. Qed.

Lemma prefix_spec (sub s : string) :
  String.prefix sub s = true ↔ ∃ post, s = sub +:+ post.
Proof.
  revert s. induction sub as [|a sub IH]; intros s.
  - split; [intros _; by exists s | by destruct s].
  - destruct s as [|b s]; simpl.
    + split; [done | intros [post Hpost]; discriminate].
    + destruct (ascii_dec a b) as [->|Hne].
      * rewrite IH. split; intros [post Hpost]; exists post;
          rewrite ?append_String in *; congruence.
      * split; [done | intros [post Hpost]; rewrite append_String in Hpost; congruence].
Qed.

Lemma includes_spec (s sub : string) :
  includes s sub = true ↔ Spec.substring sub s.
Proof.
  unfold Spec.substring.
  induction s as [|c s IH].
  - change (includes "" sub) with (String.prefix sub "" || false).
    rewrite orb_true_iff, prefix_spec. split.
    + intros [[post Hpost]|?]; [|done]. by exists "", post.
    + intros (pre & post & Heq). left.
      destruct pre; [by exists post | discriminate].
  - change (includes (String c s) sub)
      with (String.prefix sub (String c s) || includes s sub).
    rewrite orb_true_iff, prefix_spec, IH. split.
    + intros [[post Hpost]|(pre & post & Heq)].
      * by exists "", post.
      * exists (String c pre), post. by rewrite append_String, Heq.
    + intros (pre & post & Heq). destruct pre as [|c' pre].
      * left. by exists post.
      * right. exists pre, post. rewrite append_String in Heq. congruence.
Qed.

(** ** Sets *)

Lemma has_true (s : list string) (x : string) : has s x = true ↔ x ∈ s.
Proof. unfold has. apply bool_decide_eq_true. Qed.

Lemma set_add_elem (s : list string) (x y : string) :
  y ∈ set_add s x ↔ y ∈ s ∨ y = x.
Proof.
  unfold set_add. destruct (has s x) eqn:Hx.
  - apply has_true in Hx. split; [by left | intros [?| ->]; done].
  - rewrite elem_of_app, list_elem_of_singleton. done.
Qed.

Lemma set_add_NoDup (s : list string) (x : string) :
  NoDup s → NoDup (set_add s x).
Proof.
  intros Hs. unfold set_add. destruct (has s x) eqn:Hx; [done|].
  apply NoDup_app. split_and!; [done | | apply NoDup_singleton].
  intros y Hy ->%list_elem_of_singleton.
  apply has_true in Hy. congruence.
Qed.

Lemma fold_set_add_elem (l acc : list string) (y : string) :
  y ∈ fold_left set_add l acc ↔ y ∈ acc ∨ y ∈ l.
Proof.
  revert acc. induction l as [|x l IH]; intros acc; simpl.
  - rewrite elem_of_nil. tauto.
  - rewrite IH, set_add_elem, elem_of_cons. intuition.
Qed.

Lemma fold_set_add_NoDup (l acc : list string) :
  NoDup acc → NoDup (fold_left set_add l acc).
Proof.
  revert acc. induction l as [|x l IH]; intros acc Hacc; simpl; [done|].
  by apply IH, set_add_NoDup.
Qed.

Lemma new_Set_elem (l : list string) (y : string) : y ∈ new_Set l ↔ y ∈ l.
Proof.
  unfold new_Set. rewrite fold_set_add_elem, elem_of_nil. tauto.
Qed.

Lemma new_Set_NoDup (l : list string) : NoDup (new_Set l).
Proof. apply fold_set_add_NoDup, NoDup_nil_2. Qed.

(** The size of [new Set(l)] is the number of distinct values of [l]. *)
Lemma new_Set_size (l : list string) :
  set_size (new_Set l) = size (list_to_set l : gset string).
Proof.
  unfold set_size.
  rewrite <- (size_list_to_set (C:=gset string) (new_Set l)) by apply new_Set_NoDup.
  f_equal. apply set_eq. intros x.
  by rewrite !elem_of_list_to_set, new_Set_elem.
Qed.

(** The intersection computed by filtering is the intersection of the
    token sets. *)
Lemma intersection_size (l1 l2 : list string) :
  set_size (new_Set (filter (λ x, has (new_Set l2) x = true) (new_Set l1))) =
  size ((list_to_set l1 : gset string) ∩ list_to_set l2).
Proof.
  rewrite new_Set_size. f_equal. apply set_eq. intros x.
  rewrite elem_of_intersection, !elem_of_list_to_set, list_elem_of_filter.
  by rewrite has_true, !new_Set_elem, (comm and).
Qed.

(** ** The match score *)

Import ClientValidationModal.

(** The score in terms of the token sets of the specification *)
Lemma calculateMatchScore_sets (target candidate : string) :
  calculateMatchScore target candidate =
  if String.eqb (Spec.stripped target) (Spec.stripped candidate) then 1
  else if includes (Spec.stripped target) (Spec.stripped candidate) ||
          includes (Spec.stripped candidate) (Spec.stripped target)
  then decimal 8 10
  else if (0 <? Spec.overlap target candidate)%nat
  then Spec.token_score target candidate
  else 0.
Proof.
  unfold calculateMatchScore, Spec.token_score, Spec.overlap, Spec.tokens,
    Spec.stripped.
  by rewrite intersection_size, !new_Set_size.
Qed.

Lemma overlap_le_max (target candidate : string) :
  (Spec.overlap target candidate ≤
   Nat.max (size (Spec.tokens target)) (size (Spec.tokens candidate)))%nat.
Proof.
  unfold Spec.overlap.
  etrans; [apply subseteq_size, intersection_subseteq_l | lia].
Qed.

(** C2.  For all strings [target] and [candidate], with [s1] and [s2]
    the lowercased strings stripped of every non-alphanumeric character:
    the score is 1 when [s1 = s2]; else 0.8 when one of [s1], [s2]
    occurs in the other; else, with the sets of whitespace-delimited
    tokens of the lowercased strings, [0.5 + overlap / max * 0.4] when
    the sets meet, a value in (0.5, 0.9]; else 0. *)
Theorem calculateMatchScore_spec (target candidate : string) :
  let s1 := Spec.stripped target in
  let s2 := Spec.stripped candidate in
  let contained := Spec.substring s2 s1 ∨ Spec.substring s1 s2 in
  let score := calculateMatchScore target candidate in
  (s1 = s2 → score = 1) ∧
  (s1 ≠ s2 → contained → score = decimal 8 10) ∧
  (s1 ≠ s2 → ¬ contained → (0 < Spec.overlap target candidate)%nat →
   score = decimal 5 10 +
           (Qc_of_nat (size (Spec.tokens target ∩ Spec.tokens candidate)) /
            Qc_of_nat (Nat.max (size (Spec.tokens target))
                               (size (Spec.tokens candidate))))
           * decimal 4 10 ∧
   decimal 5 10 < score ∧ score ≤ decimal 9 10) ∧
  (s1 ≠ s2 → ¬ contained → Spec.overlap target candidate = 0%nat → score = 0).
Proof.
  intros s1 s2 contained score. subst score.
  rewrite calculateMatchScore_sets. fold s1 s2.
  destruct (String.eqb_spec s1 s2) as [Heq|Hne].
  { split_and!; done. }
  assert (Hinc : includes s1 s2 || includes s2 s1 = true ↔ contained).
  { unfold contained. by rewrite orb_true_iff, !includes_spec. }
  destruct (includes s1 s2 || includes s2 s1).
  - assert (contained) by (by apply Hinc). split_and!; done.
  - assert (¬ contained) by (intros Hc; by apply Hinc in Hc).
    split_and!; try done.
    + intros _ _ Hk.
      rewrite (proj2 (Nat.ltb_lt _ _) Hk).
      split; [done|].
      destruct (ratio_bounds _ _ Hk (overlap_le_max target candidate)).
      by apply token_formula_bounds.
    + intros _ _ ->. done.
Qed.

Lemma calculateMatchScore_spec_witness :
  calculateMatchScore "Al Noor" "al-noor" = 1 ∧
  calculateMatchScore "Al Noor Catering" "Al-Noor Catering Est." = decimal 8 10 ∧
  decimal 5 10 < calculateMatchScore "al noor" "al x" ≤ decimal 9 10 ∧
  calculateMatchScore "Zed" "Acme" = 0.
Proof.
  split; [|split; [|split]].
  - destruct (calculateMatchScore_spec "Al Noor" "al-noor") as (H & _).
    apply H. reflexivity.
  - destruct (calculateMatchScore_spec "Al Noor Catering" "Al-Noor Catering Est.")
      as (_ & H & _).
    apply H.
    + vm_compute. discriminate.
    + right. apply includes_spec. reflexivity.
  - destruct (calculateMatchScore_spec "al noor" "al x") as (_ & _ & H & _).
    apply H.
    + vm_compute. discriminate.
    + intros [H1|H1]; apply includes_spec in H1; vm_compute in H1; discriminate.
    + vm_compute. lia.
  - destruct (calculateMatchScore_spec "Zed" "Acme") as (_ & _ & _ & H).
    apply H.
    + vm_compute. discriminate.
    + intros [H1|H1]; apply includes_spec in H1; vm_compute in H1; discriminate.
    + vm_compute. reflexivity.
Defined.

(** ** The best match *)

Lemma findBestMatch_fold (name : string) (clients : list Client) :
  findBestMatch name clients =
  fold_left (Aux.best_step name) clients {| client := None; score := 0 |}.
Proof. reflexivity. Qed.

Section BestMatch.

Variable name : string.

Lemma best_inv_init : Aux.best_inv name [] {| client := None; score := 0 |}.
Proof. split; [by intros c Hc%elem_of_nil | done]. Qed.

Lemma best_inv_step (seen : list Client) (best : BestMatch) (c : Client) :
  Aux.best_inv name seen best → Aux.best_inv name (seen ++ [c]) (Aux.best_step name best c).
Proof.
  unfold Aux.best_inv, Aux.best_step. cbv zeta.
  intros [Hle Hbest].
  destruct (Qc_ltb (score best) (calculateMatchScore name (companyName c))) eqn:Hlt.
  - apply Qc_ltb_lt in Hlt. split; simpl.
    + intros c' [Hc'| ->%list_elem_of_singleton]%elem_of_app; [|apply Qcle_refl].
      apply Qclt_le_weak, Qcle_lt_trans with (score best); [by apply Hle | done].
    + split_and!; [|done|].
      * destruct (client best); [destruct Hbest as [? _]|rewrite Hbest in Hlt];
          [by apply Qclt_trans with (score best) | done].
      * exists seen, []. split; [done|].
        intros c' Hc'. by apply Qcle_lt_trans with (score best); [apply Hle|].
  - apply Qc_ltb_nlt in Hlt. split.
    + intros c' [Hc'| ->%list_elem_of_singleton]%elem_of_app; [by apply Hle | done].
    + destruct (client best) as [b|]; [|done].
      destruct Hbest as (Hpos & Hs & before & after & -> & Hbefore).
      split_and!; [done..|].
      exists before, (after ++ [c])%list. by rewrite <- app_assoc.
Qed.

Lemma best_inv_fold (l seen : list Client) (best : BestMatch) :
  Aux.best_inv name seen best →
  Aux.best_inv name (seen ++ l) (fold_left (Aux.best_step name) l best).
Proof.
  revert seen best. induction l as [|c l IH]; intros seen best Hinv; simpl.
  - by rewrite app_nil_r.
  - rewrite (cons_middle c seen l), app_assoc. by apply IH, best_inv_step.
Qed.

Lemma findBestMatch_inv (clients : list Client) :
  Aux.best_inv name clients (findBestMatch name clients).
Proof. rewrite findBestMatch_fold. apply (best_inv_fold clients []), best_inv_init. Qed.

End BestMatch.

(** C8, as the code has it.  The score that [findBestMatch] returns is
    the maximum over the clients (0 for none).  When that maximum is
    positive, the suggested client is the first client of the list that
    attains it; when no client scores above 0, no client is suggested. *)
Theorem findBestMatch_first_max (name : string) (clients : list Client) :
  let s c := calculateMatchScore name (companyName c) in
  let best := findBestMatch name clients in
  (∀ c, c ∈ clients → s c ≤ score best) ∧
  match client best with
  | Some c => 0 < score best ∧ s c = score best ∧ Spec.first_max name clients c
  | None => score best = 0 ∧ ∀ c, c ∈ clients → s c ≤ 0
  end.
Proof.
  intros s best. subst s best. unfold Spec.first_max.
  destruct (findBestMatch_inv name clients) as [Hle Hbest].
  split; [done|].
  destruct (client (findBestMatch name clients)) as [c|].
  - destruct Hbest as (Hpos & Hs & before & after & Heq & Hbefore).
    split_and!; [done..|].
    exists before, after. split_and!; [done..|].
    intros c' Hc'. rewrite Hs. apply Hle.
    rewrite Heq. set_solver.
  - split; [done|]. intros c Hc. rewrite <- Hbest. by apply Hle.
Qed.

Lemma findBestMatch_first_max_witness :
  client (findBestMatch "Al Noor"
            [Sample.a_client "c1" "Acme"; Sample.a_client "c2" "Al-Noor";
             Sample.a_client "c3" "AL NOOR"])
  = Some (Sample.a_client "c2" "Al-Noor") ∧
  calculateMatchScore "Al Noor" "Acme" ≤ 1.
Proof.
  pose proof (findBestMatch_first_max "Al Noor"
    [Sample.a_client "c1" "Acme"; Sample.a_client "c2" "Al-Noor";
     Sample.a_client "c3" "AL NOOR"]) as [Hle _].
  split; [reflexivity|].
  apply (Hle (Sample.a_client "c1" "Acme")). set_solver.
Defined.

(** C8, as stated, fails when no client scores above 0: the only client
    of the list attains the maximum, and no client is suggested. *)
Lemma findBestMatch_zero_not_suggested :
  let clients := [Sample.a_client "c1" "Acme"] in
  Spec.first_max "Zed" clients (Sample.a_client "c1" "Acme") ∧
  client (findBestMatch "Zed" clients) = None.
Proof.
  split; [|reflexivity].
  exists [], []. split_and!; [done | |]; by intros c' Hc'%elem_of_nil.
Qed.

(** ** The unlinked events *)

Lemma findUnresolved_fold (events : list EventItem) (clients : list Client)
    (ignoredIds : list string) (acc : list UnlinkedEvent) :
  fold_left
    (λ (unlinked : list UnlinkedEvent) event,
       match exactMatch clients event with
       | Some _ => unlinked
       | None =>
           if negb (has ignoredIds (eventId event))
           then
             let best := findBestMatch (clientName event) clients in
             (unlinked ++ [{| event := event;
                              suggestedMatch := client best;
                              matchScore := score best |}])%list
           else unlinked
       end)
    events acc =
  (acc ++ map (Aux.entry clients)
            (filter (λ e, Aux.unresolved clients ignoredIds e = true) events))%list.
Proof.
  revert acc. induction events as [|e events IH]; intros acc; simpl.
  - by rewrite app_nil_r.
  - rewrite IH, filter_cons.
    destruct (decide (Aux.unresolved clients ignoredIds e = true)) as [Hu|Hu];
      unfold Aux.unresolved in Hu;
      destruct (exactMatch clients e); try done;
      destruct (has ignoredIds (eventId e)); simpl in *; try done.
    by rewrite <- app_assoc.
Qed.

(** The effect keeps, in order, the events that have no exact match and
    are not ignored. *)
Lemma findUnresolved_filter (events : list EventItem) (clients : list Client)
    (ignoredIds : list string) :
  findUnresolved events clients ignoredIds =
  map (Aux.entry clients)
      (filter (λ e, Aux.unresolved clients ignoredIds e = true) events).
Proof. unfold findUnresolved. by rewrite findUnresolved_fold. Qed.

Lemma elem_of_findUnresolved (events : list EventItem) (clients : list Client)
    (ignoredIds : list string) (u : UnlinkedEvent) :
  u ∈ findUnresolved events clients ignoredIds ↔
  u = Aux.entry clients (event u) ∧ event u ∈ events ∧
  Aux.unresolved clients ignoredIds (event u) = true.
Proof.
  rewrite findUnresolved_filter, list_elem_of_fmap. split.
  - intros (e & -> & [He Hin]%list_elem_of_filter). done.
  - intros (Hu & Hin & He). exists (event u).
    split; [done|]. by apply list_elem_of_filter.
Qed.

Lemma exactMatch_None (clients : list Client) (e : EventItem) :
  exactMatch clients e = None ↔
  ∀ c, c ∈ clients →
    Spec.normalize (companyName c) ≠ Spec.normalize (clientName e).
Proof.
  unfold exactMatch, Spec.normalize. induction clients as [|c clients IH]; simpl.
  - split; [by intros _ c Hc%elem_of_nil | done].
  - destruct (String.eqb_spec (toLowerCase (trim (companyName c)))
                (toLowerCase (trim (clientName e)))) as [Heq|Hne].
    + split; [done|]. intros H. destruct (H c); [left | done].
    + rewrite IH. split.
      * intros H c' [->|Hc']%elem_of_cons; [done | by apply H].
      * intros H c' Hc'. apply H. by right.
Qed.

(** C4.  An event whose client name equals the company name of some
    client of the list, after trimming and lowercasing both, is not in
    the unlinked output. *)
Theorem exact_match_resolved (events : list EventItem) (clients : list Client)
    (ignoredIds : list string) (E : EventItem) (C : Client) :
  C ∈ clients →
  toLowerCase (trim (companyName C)) = toLowerCase (trim (clientName E)) →
  ∀ u, u ∈ findUnresolved events clients ignoredIds → event u ≠ E.
Proof.
  intros HC Hname u (_ & _ & Hu)%elem_of_findUnresolved Heq.
  rewrite Heq in Hu. unfold Aux.unresolved in Hu.
  destruct (exactMatch clients E) eqn:Hex; [done|].
  by apply (proj1 (exactMatch_None clients E) Hex C).
Qed.

Lemma exact_match_resolved_witness :
  let E := Sample.an_event "e1" "  al noor " "u1" [] in
  let E' := Sample.an_event "e2" "Zed" "u1" [] in
  let C := Sample.a_client "c1" "Al Noor" in
  let clients := [Sample.a_client "c0" "Acme"; C] in
  findUnresolved [E; E'] clients [] = [Aux.entry clients E'] ∧
  event (Aux.entry clients E') ≠ E.
Proof.
  intros E E' C clients. split; [reflexivity|].
  apply (exact_match_resolved [E; E'] clients [] E C).
  - right. left.
  - reflexivity.
  - left.
Defined.

(** ** Resolution actions *)

Section FilterLength.

Context {A B : Type} (P : A → Prop) `{!∀ x, Decision (P x)}
  (Q : B → Prop) `{!∀ y, Decision (Q y)} (f : A → B).

Lemma filter_map_length_le (l : list A) :
  (∀ x, x ∈ l → Q (f x) → P x) →
  (length (filter Q (map f l)) ≤ length (filter P l))%nat.
Proof.
  induction l as [|x l IH]; intros HQP; [done|].
  assert (length (filter Q (map f l)) ≤ length (filter P l))%nat as Hl.
  { apply IH. intros y Hy. apply HQP. by right. }
  simpl. rewrite !filter_cons.
  destruct (decide (Q (f x))) as [HQ|HQ]; destruct (decide (P x)) as [HP|HP];
    simpl; try lia.
  destruct HP. apply HQP; [left | done].
Qed.

Lemma filter_map_length_lt (l : list A) (x0 : A) :
  (∀ x, x ∈ l → Q (f x) → P x) →
  x0 ∈ l → P x0 → ¬ Q (f x0) →
  (length (filter Q (map f l)) < length (filter P l))%nat.
Proof.
  induction l as [|x l IH]; intros HQP Hx0 HP0 HQ0; [by apply elem_of_nil in Hx0|].
  assert (length (filter Q (map f l)) ≤ length (filter P l))%nat as Hl.
  { apply filter_map_length_le. intros y Hy. apply HQP. by right. }
  simpl. rewrite !filter_cons.
  apply elem_of_cons in Hx0 as [<-|Hx0].
  - rewrite decide_False, decide_True by done. simpl. lia.
  - assert (length (filter Q (map f l)) < length (filter P l))%nat as Hlt.
    { apply IH; try done. intros y Hy. apply HQP. by right. }
    destruct (decide (Q (f x))) as [HQ|HQ]; destruct (decide (P x)) as [HP|HP];
      simpl; try lia.
    destruct HP. apply HQP; [left | done].
Qed.

End FilterLength.

Lemma length_findUnresolved (events : list EventItem) (clients : list Client)
    (ignoredIds : list string) :
  length (findUnresolved events clients ignoredIds) =
  length (filter (λ e, Aux.unresolved clients ignoredIds e = true) events).
Proof. by rewrite findUnresolved_filter, length_map. Qed.

Lemma unresolved_exactMatch (clients : list Client) (ignoredIds : list string)
    (e : EventItem) :
  Aux.unresolved clients ignoredIds e = true ↔
  exactMatch clients e = None ∧ eventId e ∉ ignoredIds.
Proof.
  unfold Aux.unresolved. destruct (exactMatch clients e).
  - split; [done | by intros [? _]].
  - rewrite negb_true_iff, <- not_true_iff_false, has_true. tauto.
Qed.

(** An event that bears the company name of a client has an exact
    match. *)
Lemma exactMatch_same_name (clients : list Client) (e : EventItem) :
  clientName e ∈ map companyName clients → exactMatch clients e ≠ None.
Proof.
  intros (c & Hc & Hin)%list_elem_of_fmap Hnone.
  apply (proj1 (exactMatch_None clients e) Hnone c Hin).
  unfold Spec.normalize. by rewrite Hc.
Qed.

Lemma after_link_shrinks (events : list EventItem) (clients : list Client)
    (ignoredIds : list string) (u : UnlinkedEvent) (cname : string) :
  u ∈ findUnresolved events clients ignoredIds →
  cname ∈ map companyName clients →
  (length (findUnresolved (Store.after_link clients (Some u) cname events)
             clients ignoredIds)
   < length (findUnresolved events clients ignoredIds))%nat.
Proof.
  intros (_ & Hin & Hu)%elem_of_findUnresolved Hc.
  rewrite !length_findUnresolved.
  unfold Store.after_link, handleLink, Store.updateEvent.
  set (p := {| patch_clientName := cname |}).
  assert (Hp : ∀ e, Aux.unresolved clients ignoredIds (Store.apply_patch e p) = false).
  { intros e. apply not_true_iff_false. intros [He _]%unresolved_exactMatch.
    by apply (exactMatch_same_name clients (Store.apply_patch e p)). }
  apply filter_map_length_lt with (x0 := event u); try done.
  - intros e _. destruct (String.eqb (eventId e) (eventId (event u))); [|done].
    by rewrite Hp.
  - rewrite String.eqb_refl, Hp. done.
Qed.

Lemma after_create_shrinks (events : list EventItem) (clients : list Client)
    (ignoredIds : list string) (u : UnlinkedEvent) (now now' newId : string) :
  u ∈ findUnresolved events clients ignoredIds →
  (length (findUnresolved events
             (Store.after_create now now' newId (Some u) clients) ignoredIds)
   < length (findUnresolved events clients ignoredIds))%nat.
Proof.
  intros (_ & Hin & Hu)%elem_of_findUnresolved.
  rewrite !length_findUnresolved.
  unfold Store.after_create, handleCreate, Store.addClient.
  set (clients' := (clients ++ _)%list).
  rewrite <- (list_fmap_id events) at 1.
  apply filter_map_length_lt with (x0 := event u); try done.
  - intros e _. rewrite !unresolved_exactMatch, !exactMatch_None.
    intros [He ?]. split; [|done].
    intros c Hc. apply He. subst clients'. set_solver.
  - simpl. rewrite unresolved_exactMatch. intros [He _].
    apply (exactMatch_same_name clients' (event u)); [|done].
    subst clients'. rewrite fmap_app. set_solver.
Qed.

Lemma after_ignore_shrinks (events : list EventItem) (clients : list Client)
    (ignoredIds : list string) (u : UnlinkedEvent) :
  u ∈ findUnresolved events clients ignoredIds →
  (length (findUnresolved events clients (handleIgnore ignoredIds (Some u)))
   < length (findUnresolved events clients ignoredIds))%nat.
Proof.
  intros (_ & Hin & Hu)%elem_of_findUnresolved.
  rewrite !length_findUnresolved. unfold handleIgnore.
  rewrite <- (list_fmap_id events) at 1.
  apply filter_map_length_lt with (x0 := event u); try done.
  - intros e _. rewrite !unresolved_exactMatch, set_add_elem. tauto.
  - simpl. rewrite unresolved_exactMatch, set_add_elem. tauto.
Qed.

(** The result depends on [ignoredIds] only through its members. *)
Lemma findUnresolved_ext (events : list EventItem) (clients : list Client)
    (ignoredIds ignoredIds' : list string) :
  (∀ id, id ∈ ignoredIds' ↔ id ∈ ignoredIds) →
  findUnresolved events clients ignoredIds' =
  findUnresolved events clients ignoredIds.
Proof.
  intros Hext. rewrite !findUnresolved_filter. f_equal.
  apply list_filter_iff. intros e.
  rewrite !unresolved_exactMatch, Hext. done.
Qed.

(** C7.  Let [u] be an entry of the unlinked output.  After
    [handleLink] on [u] with the company name of a client of the list
    (the suggested match, or a choice of the select box), and after
    [handleCreate] on [u], the output recomputed from the updated store
    is strictly shorter; after [handleIgnore] on [u] it is not longer;
    and the output is the same whenever the events and the clients are
    the same and the ignored set has the same members. *)
Theorem resolution_shrinks (events : list EventItem) (clients : list Client)
    (ignoredIds : list string) (u : UnlinkedEvent) :
  u ∈ findUnresolved events clients ignoredIds →
  (∀ clientName, clientName ∈ map companyName clients →
     (length (findUnresolved (Store.after_link clients (Some u) clientName events)
                clients ignoredIds)
      < length (findUnresolved events clients ignoredIds))%nat) ∧
  (∀ now now' newId,
     (length (findUnresolved events
                (Store.after_create now now' newId (Some u) clients) ignoredIds)
      < length (findUnresolved events clients ignoredIds))%nat) ∧
  (length (findUnresolved events clients (handleIgnore ignoredIds (Some u)))
   ≤ length (findUnresolved events clients ignoredIds))%nat ∧
  (∀ events' clients' ignoredIds',
     events' = events → clients' = clients →
     (∀ id, id ∈ ignoredIds' ↔ id ∈ ignoredIds) →
     findUnresolved events' clients' ignoredIds' =
     findUnresolved events clients ignoredIds).
Proof.
  intros Hu. split_and!.
  - intros cname Hc. by apply after_link_shrinks.
  - intros now now' newId. by apply after_create_shrinks.
  - by apply Nat.lt_le_incl, after_ignore_shrinks.
  - intros events' clients' ignoredIds' -> ->. apply findUnresolved_ext.
Qed.

Lemma resolution_shrinks_witness :
  let E := Sample.an_event "e1" "Zed" "u1" [] in
  let E' := Sample.an_event "e2" " al noor" "u1" [] in
  let clients := [Sample.a_client "c0" "Acme"; Sample.a_client "c1" "Al Noor"] in
  let u := Aux.entry clients E in
  findUnresolved [E; E'] clients [] = [u] ∧
  (length (findUnresolved (Store.after_link clients (Some u) "Acme" [E; E'])
             clients []) < 1)%nat ∧
  (length (findUnresolved [E; E']
             (Store.after_create "2024-05-02T10:00:00.000Z"
                "2024-05-02T10:00:00.001Z" "c2" (Some u) clients) []) < 1)%nat ∧
  (length (findUnresolved [E; E'] clients (handleIgnore [] (Some u))) ≤ 1)%nat ∧
  findUnresolved [E; E'] clients ["e0"; "e0"] = findUnresolved [E; E'] clients ["e0"].
Proof.
  intros E E' clients u.
  assert (Hu : u ∈ findUnresolved [E; E'] clients []) by left.
  destruct (resolution_shrinks [E; E'] clients ["e0"] u) as (_ & _ & _ & H4); [left|].
  destruct (resolution_shrinks [E; E'] clients [] u Hu) as (H1 & H2 & H3 & _).
  split_and!.
  - reflexivity.
  - apply H1. left.
  - apply H2.
  - apply H3.
  - apply H4; [reflexivity..|]. intros id. rewrite !elem_of_cons. tauto.
Defined.

(** ** The empty client name *)

Lemma includes_empty (s : string) : includes s "" = true.
Proof. by destruct s. Qed.

Lemma calculateMatchScore_empty_target (candidate : string) :
  calculateMatchScore "" candidate =
  if String.eqb "" (Spec.stripped candidate) then 1 else decimal 8 10.
Proof.
  rewrite calculateMatchScore_sets.
  change (Spec.stripped "") with "".
  destruct (String.eqb "" (Spec.stripped candidate)); [done|].
  by rewrite includes_empty, orb_true_r.
Qed.

(** C6, at the failing input.  An empty client name scores 0.8 against
    the company name "Acme" (and never less against any candidate), so
    the event of that name is offered the first client of the list as a
    confident suggestion. *)
Theorem empty_clientName_confident :
  let E := Sample.an_event "e1" "" "u1" [] in
  let clients := [Sample.a_client "c0" "Acme"; Sample.a_client "c1" "Al Noor"] in
  calculateMatchScore "" "Acme" = decimal 8 10 ∧
  (∀ candidate, decimal 8 10 ≤ calculateMatchScore "" candidate) ∧
  findUnresolved [E] clients [] =
    [{| event := E;
        suggestedMatch := Some (Sample.a_client "c0" "Acme");
        matchScore := decimal 8 10 |}] ∧
  Forall (λ u, confident u = true) (findUnresolved [E] clients []).
Proof.
  intros E clients. split_and!.
  - reflexivity.
  - intros candidate. rewrite calculateMatchScore_empty_target.
    destruct (String.eqb "" (Spec.stripped candidate)); by apply Qc_ltb_nlt.
  - reflexivity.
  - repeat constructor.
Qed.

(** ** Event financials, in exact arithmetic *)

Import FinancialStudio.

Lemma or_zero_coerce (x : field number) : or_zero x = Num (Spec.coerce x).
Proof.
  destruct x as [| |[q|]]; simpl; try done.
  destruct (Qc_eqb q 0) eqn:Hq; simpl; [|done].
  apply Qc_eqb_eq in Hq. by rewrite Hq.
Qed.

Lemma sum_fold (f g : LineItem → field number) (items : list LineItem) (a : Qc) :
  fold_left (λ sum item, add sum (mul (or_zero (f item)) (or_zero (g item))))
    items (Num a)
  = Num (a + Spec.sum_Qc
               (map (λ item, Spec.coerce (f item) * Spec.coerce (g item)) items)).
Proof.
  revert a. induction items as [|item items IH]; intros a; simpl.
  - by rewrite Qcplus_0_r.
  - rewrite !or_zero_coerce. simpl. rewrite IH. f_equal. ring.
Qed.

Lemma revenue_sum (event : EventItem) :
  revenue (withFinancials event) =
  Num (Spec.sum_Qc (map Spec.line_revenue (or_empty (cost_tracker event)))).
Proof.
  unfold withFinancials. cbn [revenue].
  by rewrite (sum_fold client_price_sar quantity), Qcplus_0_l.
Qed.


(** ** Negative quantities *)






(** ** Sorting *)

(** Selecting the key of the current configuration flips the direction;
    selecting another key sorts it ascending. *)
Lemma requestSort_same_key (k : string) (d : SortDirection) :
  requestSort (Some {| key := k; direction := d |}) k =
  Some {| key := k; direction := match d with asc => desc | desc => asc end |}.
Proof.
  unfold requestSort. simpl. rewrite String.eqb_refl. by destruct d.
Qed.

Lemma requestSort_other_key (cfg : SortConfig) (k : string) :
  key cfg ≠ k → requestSort (Some cfg) k = Some {| key := k; direction := asc |}.
Proof.
  intros Hk. unfold requestSort.
  by rewrite (proj2 (String.eqb_neq _ _) Hk).
Qed.

Section Comparators.

Variable StringToNumber : string → number.

(** On two numbers both comparators compare the numbers. *)
Lemma less_than_numbers (x y : Qc) :
  less_than StringToNumber (VNumber (Num x)) (VNumber (Num y)) = Qc_ltb x y.
Proof. reflexivity. Qed.

(** The comparator of [sortedServices] compares two strings after
    lowercasing them. *)
Lemma compareServices_strings (cfg : SortConfig) (a b : gmap string jsvalue)
    (x y : string) :
  a !! key cfg = Some (VString x) → b !! key cfg = Some (VString y) →
  x ≠ "" → y ≠ "" →
  compareServices StringToNumber cfg a b =
  if String.ltb (toLowerCase x) (toLowerCase y)
  then match direction cfg with asc => (-1)%Z | desc => 1%Z end
  else if String.ltb (toLowerCase y) (toLowerCase x)
  then match direction cfg with asc => 1%Z | desc => (-1)%Z end
  else 0%Z.
Proof.
  intros Ha Hb Hx Hy. unfold compareServices, service_prop.
  rewrite Ha, Hb. simpl.
  by rewrite (proj2 (String.eqb_neq _ _) Hx), (proj2 (String.eqb_neq _ _) Hy).
Qed.

(** The comparator of [sortedEvents] compares two names as they are. *)
Lemma compareEvents_names (cfg : SortConfig) (a b : EventFinancial) :
  key cfg = "name" →
  compareEvents StringToNumber cfg a b =
  if String.ltb (name a) (name b)
  then match direction cfg with asc => (-1)%Z | desc => 1%Z end
  else if String.ltb (name b) (name a)
  then match direction cfg with asc => 1%Z | desc => (-1)%Z end
  else 0%Z.
Proof. intros Hk. unfold compareEvents. by rewrite Hk. Qed.

(** C9, at the failing input.  Sorting by name, ascending, the
    comparator of [sortedEvents] puts "Zeta" before "alpha", where the
    comparator of [sortedServices] puts "alpha" first. *)
Theorem compareEvents_case_sensitive :
  let cfg := {| key := "name"; direction := asc |} in
  let zeta := withFinancials (Sample.named_event "e1" "Zeta") in
  let alpha := withFinancials (Sample.named_event "e2" "alpha") in
  compareEvents StringToNumber cfg zeta alpha = (-1)%Z ∧
  sortedEvents StringToNumber [zeta; alpha] (Some cfg) "event deep dive"
    = [zeta; alpha] ∧
  compareServices StringToNumber cfg
    (Sample.named_service "Zeta") (Sample.named_service "alpha") = 1%Z ∧
  sortedServices StringToNumber
    [Sample.named_service "Zeta"; Sample.named_service "alpha"]
    (Some cfg) "pricing & margin analysis"
    = [Sample.named_service "alpha"; Sample.named_service "Zeta"].
Proof.
  intros cfg zeta alpha.
  assert (Hs : compareServices StringToNumber cfg
                 (Sample.named_service "Zeta") (Sample.named_service "alpha") = 1%Z).
  { by rewrite (compareServices_strings cfg _ _ "Zeta" "alpha"). }
  assert (He : compareEvents StringToNumber cfg zeta alpha = (-1)%Z).
  { by rewrite compareEvents_names. }
  split_and!; done.
Qed.

End Comparators.

(** ** Double precision *)

Section Rounding.

Import Binary64.


















End Rounding.

(** ** Event financials in double precision *)

Section Doubles.

Import Binary64 Dynamic FinancialStudio64.

Variable ToNumber_other : value → double.








(** ** Commissions *)

Lemma profit_of_get (e : object) :
  (∃ p, e !! "profit" = Some (JNumber p)) →
  ToNumber ToNumber_other (get e "profit") = Spec64.profit_of e.
Proof. intros [p Hp]. unfold get, Spec64.profit_of. by rewrite Hp. Qed.

Lemma rate_get (user : User) (e : object) :
  Spec64.number_or_missing (e !! "commissionRate") →
  ToNumber ToNumber_other
    (nullish_else (get e "commissionRate")
       (nullish_else (of_field (commissionRate user)) (JNumber zero))) =
  Spec64.rate user e.
Proof.
  unfold get, Spec64.rate.
  destruct (e !! "commissionRate") as [[]|]; try done;
    by destruct (commissionRate user).
Qed.

Lemma paid_get (e : object) :
  Spec64.boolean_or_missing (e !! "commissionPaid") →
  truthy (get e "commissionPaid") = Spec64.paid e.
Proof.
  unfold get, Spec64.paid.
  by destruct (e !! "commissionPaid") as [[| |[]| | | |]|].
Qed.

Lemma owned_get (user : User) (e : object) :
  is_string (get e "salespersonId") (userId user) = Spec64.owned user e.
Proof.
  unfold get, Spec64.owned.
  destruct (e !! "salespersonId") as [[]|]; try done. simpl.
  destruct (String.eqb_spec s (userId user)).
  - by rewrite bool_decide_eq_true_2.
  - by rewrite bool_decide_eq_false_2.
Qed.

Lemma commission_fold (user : User) (l : list object) (total paid : double) :
  Forall Spec64.financial l →
  fold_left (commission_step ToNumber_other user) l (total, paid) =
  (fold_left add
     (map (Spec64.commission user) (filter (λ e, Spec64.gains e = true) l))
     total,
   fold_left add
     (map (Spec64.commission user)
        (filter (λ e, Spec64.paid e = true)
           (filter (λ e, Spec64.gains e = true) l)))
     paid).
Proof.
  intros Hl. revert total paid.
  induction Hl as [|e l (Hp & Hr & Hc) _ IH]; intros total paid; [done|].
  cbn [fold_left]. unfold commission_step at 2.
  rewrite (profit_of_get e Hp), (rate_get user e Hr), (paid_get e Hc).
  fold (Spec64.commission user e).
  rewrite (filter_cons (λ e, Spec64.gains e = true)).
  change (gt (Spec64.profit_of e) zero) with (Spec64.gains e).
  destruct (Spec64.gains e) eqn:Hgains.
  - rewrite decide_True by done. rewrite filter_cons.
    destruct (Spec64.paid e) eqn:Hpaid.
    + rewrite decide_True by done. by rewrite IH.
    + rewrite decide_False by done. by rewrite IH.
  - rewrite decide_False by done. by rewrite IH.
Qed.

Lemma commissionSummary_summary_of (users : list User) (events : list object) :
  Forall Spec64.financial events →
  commissionSummary ToNumber_other users events =
  map (λ user, Spec64.summary_of user events)
      (filter (λ u, role u = "Sales") users).
Proof.
  intros Hevents. unfold commissionSummary.
  rewrite (list_filter_iff (λ u, String.eqb (role u) "Sales" = true)
                           (λ u, role u = "Sales"))
    by (intros u; apply String.eqb_eq).
  apply map_ext. intros user.
  rewrite (list_filter_iff
             (λ e, is_string (get e "salespersonId") (userId user) = true)
             (λ e, Spec64.owned user e = true))
    by (intros e; by rewrite owned_get).
  rewrite commission_fold; [done|].
  apply Forall_forall. intros e He.
  apply list_elem_of_filter in He as [_ He].
  by eapply Forall_forall in Hevents.
Qed.

(** C3.  [commissionSummary] has one entry per user of role Sales, in
    the order of [users].  Over events that carry a numeric profit, a
    numeric or missing [commissionRate] and a boolean or missing
    [commissionPaid], its [totalCommission] adds up, from the left and
    in double precision, the amounts
    [profit * ((event.commissionRate ?? user.commissionRate ?? 0) / 100)]
    of exactly the events of that salesperson with a profit above 0;
    its [paidCommission] adds up the same amounts over those of these
    events whose [commissionPaid] is [true]; [pendingCommission] is
    their difference; [eventCount] counts the events of the salesperson
    whatever their profit.  Two events of profit 500 and -100 at rate 10
    give a total of 50. *)
Theorem commissionSummary_spec (users : list User) (events : list object) :
  Forall Spec64.financial events →
  commissionSummary ToNumber_other users events =
    map (λ user, Spec64.summary_of user events)
        (filter (λ u, role u = "Sales") users) ∧
  (∀ (user : User) (e1 e2 : object),
     role user = "Sales" →
     Spec64.financial e1 → Spec64.financial e2 →
     e1 !! "salespersonId" = Some (JString (userId user)) →
     e2 !! "salespersonId" = Some (JString (userId user)) →
     e1 !! "profit" = Some (JNumber (of_Z 500)) →
     e2 !! "profit" = Some (JNumber (of_Z (-100))) →
     Spec64.rate user e1 = of_Z 10 →
     ∃ s, commissionSummary ToNumber_other [user] [e1; e2] = [s] ∧
          totalCommission s = of_Z 50 ∧ eventCount s = 2%nat).
Proof.
  intros Hevents. split; [by apply commissionSummary_summary_of|].
  intros user e1 e2 Hrole Hf1 Hf2 H1 H2 Hp1 Hp2 Hrate.
  eexists. split.
  - rewrite commissionSummary_summary_of
      by (repeat (apply Forall_cons_2; [done|]); apply Forall_nil_2).
    rewrite filter_cons, decide_True by done. reflexivity.
  - unfold Spec64.summary_of. cbn [totalCommission eventCount].
    assert (Ho1 : Spec64.owned user e1 = true).
    { unfold Spec64.owned. rewrite H1. by apply bool_decide_eq_true_2. }
    assert (Ho2 : Spec64.owned user e2 = true).
    { unfold Spec64.owned. rewrite H2. by apply bool_decide_eq_true_2. }
    assert (Hg1 : Spec64.gains e1 = true).
    { unfold Spec64.gains, Spec64.profit_of. by rewrite Hp1. }
    assert (Hg2 : Spec64.gains e2 = false).
    { unfold Spec64.gains, Spec64.profit_of. by rewrite Hp2. }
    rewrite !filter_cons, !filter_nil, !decide_True by done.
    rewrite !filter_cons, !filter_nil.
    rewrite decide_True by done. rewrite decide_False by (by rewrite Hg2).
    split; [|done].
    cbn [map]. unfold Spec64.commission, Spec64.profit_of. by rewrite Hp1, Hrate.
Qed.

(** ** The frame of the derivation *)




End Doubles.

Section DoubleExamples.

Import Binary64 Dynamic FinancialStudio64.



(** The sums round as they go: the prices 0.1 and -0.3 with the
    quantities 3 and 1 leave a revenue of 2^-54, not 0, and the margin
    is computed on that remainder. *)
Example withFinancials_rounds :
  let item1 : object :=
    {[ "client_price_sar" := JNumber (div (of_Z 1) (of_Z 10));
       "quantity" := JNumber (of_Z 3) ]} in
  let item2 : object :=
    {[ "client_price_sar" := JNumber (div (of_Z (-3)) (of_Z 10));
       "quantity" := JNumber (of_Z 1) ]} in
  let r := withFinancials (λ _, NaN) (Sample.booking "e1" "u1" [item1; item2]) in
  r ≫= (.!! "revenue") = Some (JNumber (S754_finite false 4503599627370496 (-106))) ∧
  r ≫= (.!! "margin") = Some (JNumber (of_Z 100)).
Proof. intros item1 item2 r. split; by vm_compute. Qed.

Lemma commissionSummary_spec_witness :
  let u1 := Sample.a_seller "u1" "Sales" (Present (of_Z 10)) in
  let u2 := Sample.a_seller "u2" "Sales" Undefined in
  let u3 := Sample.a_seller "u3" "Admin" (Present (of_Z 10)) in
  let e1 := <["commissionPaid" := JBoolean true]> (Sample.settled "e1" "u1" 500) in
  let e2 := <["commissionPaid" := JBoolean true]> (Sample.settled "e2" "u1" (-100)) in
  let e3 := <["commissionRate" := JNumber (of_Z 5)]>
              (<["commissionPaid" := JBoolean false]> (Sample.settled "e3" "u1" 200)) in
  let e4 := Sample.settled "e4" "u2" 100 in
  let e5 := Sample.settled "e5" "u3" 300 in
  commissionSummary (λ _, NaN) [u1; u2; u3] [e1; e2; e3; e4; e5] =
  [ {| user := u1; totalCommission := of_Z 60; paidCommission := of_Z 50;
       pendingCommission := of_Z 10; eventCount := 3 |};
    {| user := u2; totalCommission := zero; paidCommission := zero;
       pendingCommission := zero; eventCount := 1 |} ].
Proof.
  intros u1 u2 u3 e1 e2 e3 e4 e5.
  destruct (commissionSummary_spec (λ _, NaN) [u1; u2; u3] [e1; e2; e3; e4; e5])
    as [H _].
  - repeat (apply Forall_cons_2; [|]); [..|apply Forall_nil_2];
      (split; [eexists; vm_compute; reflexivity | split; vm_compute; exact I]).
  - rewrite H. by vm_compute.
Defined.

(** The order of the two operations matters in double precision: at
    profit 100 and rate 7 the amount [profit * (rate / 100)] of the code
    is 7.000000000000001, where [profit * rate / 100] is 7. *)
Example commission_order :
  let e := <["commissionRate" := JNumber (of_Z 7)]> (Sample.settled "e1" "u1" 100) in
  let u := Sample.a_seller "u1" "Sales" Undefined in
  map totalCommission (commissionSummary (λ _, NaN) [u] [e]) =
    [S754_finite false 7881299347898369 (-50)] ∧
  div (mul (of_Z 100) (of_Z 7)) (of_Z 100) = of_Z 7 ∧
  of_Z 7 = S754_finite false 7881299347898368 (-50).
Proof. intros e u. split_and!; by vm_compute. Qed.


(** A property of the event that bears one of the four names is
    replaced by the derived number. *)
Example withFinancials_replaces :
  let event := <["revenue" := JString "n/a"]> (Sample.booking "e1" "u1" []) in
  event !! "revenue" = Some (JString "n/a") ∧
  withFinancials (λ _, NaN) event ≫= (.!! "revenue") = Some (JNumber zero).
Proof. intros event. split; by vm_compute. Qed.

End DoubleExamples.

(** * Further properties *)

(** ** The match score *)

Lemma overlap_comm (a b : string) : Spec.overlap a b = Spec.overlap b a.
Proof. unfold Spec.overlap. by rewrite (comm_L (∩)). Qed.

(** The score does not depend on which of the two names is the target. *)
Theorem calculateMatchScore_sym (a b : string) :
  calculateMatchScore a b = calculateMatchScore b a.
Proof.
  rewrite !calculateMatchScore_sets.
  rewrite (String.eqb_sym (Spec.stripped a)).
  rewrite (orb_comm (includes (Spec.stripped a) (Spec.stripped b))).
  rewrite (overlap_comm a b). unfold Spec.token_score.
  by rewrite (overlap_comm a b), Nat.max_comm.
Qed.

Lemma score_cases (a b : string) :
  (calculateMatchScore a b = 0 ∨ decimal 5 10 < calculateMatchScore a b) ∧
  calculateMatchScore a b ≤ 1 ∧
  (calculateMatchScore a b = 1 ↔ Spec.stripped a = Spec.stripped b).
Proof.
  rewrite calculateMatchScore_sets.
  assert (H51 : decimal 5 10 < 1) by (by apply Qc_ltb_lt).
  assert (H58 : decimal 5 10 < decimal 8 10) by (by apply Qc_ltb_lt).
  assert (H81 : decimal 8 10 < 1) by (by apply Qc_ltb_lt).
  assert (H91 : decimal 9 10 < 1) by (by apply Qc_ltb_lt).
  assert (H01 : (0 : Qc) < 1) by (by apply Qc_ltb_lt).
  destruct (String.eqb_spec (Spec.stripped a) (Spec.stripped b)) as [Heq|Hne].
  { split_and!; [by right | apply Qcle_refl | done]. }
  destruct (includes _ _ || includes _ _).
  { split_and!; [by right | by apply Qclt_le_weak |].
    split; [|done]. intros H1. rewrite H1 in H81. by apply Qclt_not_eq in H81. }
  destruct (0 <? Spec.overlap a b)%nat eqn:Hk.
  - apply Nat.ltb_lt in Hk.
    destruct (ratio_bounds _ _ Hk (overlap_le_max a b)) as [Hr0 Hr1].
    destruct (token_formula_bounds _ Hr0 Hr1) as [Hlo Hhi].
    fold (Spec.token_score a b) in Hlo, Hhi.
    assert (Hlt : Spec.token_score a b < 1) by (by eapply Qcle_lt_trans).
    split_and!; [by right | by apply Qclt_le_weak |].
    split; [|done]. intros H1. rewrite H1 in Hlt. by apply Qclt_not_eq in Hlt.
  - split_and!; [by left | by apply Qclt_le_weak |].
    split; [|done]. intros H1. by apply Qclt_not_eq in H01.
Qed.

(** A score is 0 or lies in (0.5, 1], and it is 1 exactly when the two
    names are equal once lowercased and stripped. *)
Theorem calculateMatchScore_values (a b : string) :
  (calculateMatchScore a b = 0 ∨ decimal 5 10 < calculateMatchScore a b) ∧
  calculateMatchScore a b ≤ 1 ∧
  (calculateMatchScore a b = 1 ↔ Spec.stripped a = Spec.stripped b).
Proof. apply score_cases. Qed.

(** ** Exact matches *)

Lemma space_not_alnum (c : ascii) :
  is_space c = true → is_alnum (lower_char c) = false.
Proof.
  destruct c as [b0 b1 b2 b3 b4 b5 b6 b7].
  destruct b0, b1, b2, b3, b4, b5, b6, b7; vm_compute; congruence.
Qed.

Lemma strip_lower_cons (c : ascii) (s : string) :
  strip_non_alnum (toLowerCase (String c s)) =
  if is_alnum (lower_char c)
  then String (lower_char c) (strip_non_alnum (toLowerCase s))
  else strip_non_alnum (toLowerCase s).
Proof. reflexivity. Qed.

Lemma strip_lower_trimStart (s : string) :
  strip_non_alnum (toLowerCase (trimStart s)) = strip_non_alnum (toLowerCase s).
Proof.
  induction s as [|c s IH]; [done|].
  cbn [trimStart]. destruct (is_space c) eqn:Hc; [|done].
  by rewrite strip_lower_cons, (space_not_alnum c Hc).
Qed.

Lemma strip_lower_trimEnd (s : string) :
  strip_non_alnum (toLowerCase (trimEnd s)) = strip_non_alnum (toLowerCase s).
Proof.
  induction s as [|c s IH]; [done|].
  cbn [trimEnd]. rewrite (strip_lower_cons c s), <- IH.
  destruct (trimEnd s) as [|c' t].
  - destruct (is_space c) eqn:Hc.
    + by rewrite (space_not_alnum c Hc).
    + by rewrite strip_lower_cons.
  - by rewrite (strip_lower_cons c (String c' t)).
Qed.

(** Trimming does not change the stripped form of a name. *)
Lemma stripped_trim (s : string) : Spec.stripped (trim s) = Spec.stripped s.
Proof.
  unfold Spec.stripped, trim.
  by rewrite strip_lower_trimEnd, strip_lower_trimStart.
Qed.

(** The client that the exact-match test of the effect finds for an
    event is a client of the list, and it scores 1 against the name of
    the event: the test never resolves an event that the fuzzy score
    would rate below a perfect match. *)
Theorem exactMatch_scores_one (clients : list Client) (e : EventItem) (c : Client) :
  exactMatch clients e = Some c →
  c ∈ clients ∧ calculateMatchScore (clientName e) (companyName c) = 1.
Proof.
  unfold exactMatch. intros [Hin Heq]%find_some.
  split; [by apply list_elem_of_In|].
  apply String.eqb_eq in Heq.
  apply score_cases.
  rewrite <- (stripped_trim (clientName e)), <- (stripped_trim (companyName c)).
  unfold Spec.stripped. by rewrite Heq.
Qed.

Lemma exactMatch_scores_one_witness :
  let c := Sample.a_client "c1" "Al Noor" in
  let e := Sample.an_event "e1" "  al noor " "u1" [] in
  c ∈ [Sample.a_client "c0" "Acme"; c] ∧ calculateMatchScore "  al noor " "Al Noor" = 1.
Proof.
  intros c e.
  apply (exactMatch_scores_one [Sample.a_client "c0" "Acme"; c] e c).
  reflexivity.
Defined.

(** ** Suggestions *)

Lemma entry_of_findUnresolved (events : list EventItem) (clients : list Client)
    (ignoredIds : list string) (u : UnlinkedEvent) :
  u ∈ findUnresolved events clients ignoredIds →
  suggestedMatch u = client (findBestMatch (clientName (event u)) clients) ∧
  matchScore u = score (findBestMatch (clientName (event u)) clients).
Proof.
  intros (Hu & _ & _)%elem_of_findUnresolved.
  rewrite Hu at 1 3. done.
Qed.

(** In every entry of the unlinked output, a suggested client is a
    client of the list, the score of the entry is the score of that
    client against the name of the event and lies in (0.5, 1]; an entry
    without suggestion has score 0. *)
Theorem suggestion_of_entry (events : list EventItem) (clients : list Client)
    (ignoredIds : list string) (u : UnlinkedEvent) :
  u ∈ findUnresolved events clients ignoredIds →
  match suggestedMatch u with
  | Some c =>
      c ∈ clients ∧
      matchScore u = calculateMatchScore (clientName (event u)) (companyName c) ∧
      decimal 5 10 < matchScore u ∧ matchScore u ≤ 1
  | None => matchScore u = 0
  end.
Proof.
  intros [Hs Hm]%entry_of_findUnresolved. rewrite Hs, Hm.
  destruct (findBestMatch_inv (clientName (event u)) clients) as [_ Hbest].
  destruct (client _) as [c|]; [|done].
  destruct Hbest as (Hpos & Hc & before & after & Heq & _).
  destruct (score_cases (clientName (event u)) (companyName c)) as (H0 & H1 & _).
  rewrite Hc in H0, H1.
  split_and!; [rewrite Heq; apply elem_of_app; right; left | done | | done].
  destruct H0 as [H0|H0]; [|done].
  rewrite H0 in Hpos. by apply Qclt_not_eq in Hpos.
Qed.

Lemma suggestion_of_entry_witness :
  let E := Sample.an_event "e1" "al noor" "u1" [] in
  let clients := [Sample.a_client "c0" "Acme"; Sample.a_client "c1" "Al Noor Est."] in
  decimal 5 10 < matchScore (Aux.entry clients E).
Proof.
  intros E clients.
  pose proof (suggestion_of_entry [E] clients [] (Aux.entry clients E)) as H.
  assert (Hs : suggestedMatch (Aux.entry clients E)
               = Some (Sample.a_client "c1" "Al Noor Est."))
    by (vm_compute; reflexivity).
  rewrite Hs in H. apply H. left.
Defined.

(** The threshold 0.4 of the suggestion card never hides a suggestion:
    an entry of the unlinked output is shown with a suggestion exactly
    when it has one. *)
Theorem confident_iff_suggested (events : list EventItem) (clients : list Client)
    (ignoredIds : list string) (u : UnlinkedEvent) :
  u ∈ findUnresolved events clients ignoredIds →
  (confident u = true ↔ suggestedMatch u ≠ None).
Proof.
  intros [Hs Hm]%entry_of_findUnresolved. unfold confident. rewrite Hs, Hm.
  destruct (findBestMatch_inv (clientName (event u)) clients) as [_ Hbest].
  destruct (client _) as [c|]; [|done].
  destruct Hbest as (Hpos & Hc & _).
  destruct (score_cases (clientName (event u)) (companyName c)) as ([H0|H0] & _).
  - rewrite Hc in H0. rewrite H0 in Hpos. by apply Qclt_not_eq in Hpos.
  - rewrite Hc in H0. split; [done|]. intros _. apply Qc_ltb_lt.
    apply Qclt_trans with (decimal 5 10); [by apply Qc_ltb_lt | done].
Qed.

Lemma confident_iff_suggested_witness :
  let E := Sample.an_event "e1" "al noor" "u1" [] in
  let clients := [Sample.a_client "c0" "Acme"; Sample.a_client "c1" "Al Noor Est."] in
  confident (Aux.entry clients E) = true.
Proof.
  intros E clients.
  apply (confident_iff_suggested [E] clients [] (Aux.entry clients E)).
  - left.
  - discriminate.
Defined.

(** ** Which events are unlinked *)

Lemma unresolved_Forall (clients : list Client) (ignoredIds : list string)
    (e : EventItem) :
  Aux.unresolved clients ignoredIds e = true ↔
  Forall (λ c, Spec.normalize (companyName c) ≠ Spec.normalize (clientName e))
         clients ∧
  eventId e ∉ ignoredIds.
Proof. by rewrite unresolved_exactMatch, exactMatch_None, Forall_forall. Qed.

Lemma events_of_findUnresolved (events : list EventItem) (clients : list Client)
    (ignoredIds : list string) :
  map event (findUnresolved events clients ignoredIds) =
  filter (λ e, Aux.unresolved clients ignoredIds e = true) events.
Proof.
  rewrite findUnresolved_filter, map_map. apply map_id.
Qed.

(** The events of the unlinked output are, in the order of [events],
    exactly those that no client matches up to case and surrounding
    white space and whose id is not ignored. *)
Theorem findUnresolved_events (events : list EventItem) (clients : list Client)
    (ignoredIds : list string) :
  map event (findUnresolved events clients ignoredIds) =
  filter
    (λ e, Forall (λ c, Spec.normalize (companyName c) ≠ Spec.normalize (clientName e))
                 clients ∧
          eventId e ∉ ignoredIds)
    events.
Proof.
  rewrite events_of_findUnresolved.
  apply list_filter_iff. intros e. apply unresolved_Forall.
Qed.

(** Without clients, every event that is not ignored is unlinked, with
    no suggestion and score 0. *)
Theorem findUnresolved_no_clients (events : list EventItem)
    (ignoredIds : list string) :
  findUnresolved events [] ignoredIds =
  map (λ e, {| event := e; suggestedMatch := None; matchScore := 0 |})
      (filter (λ e, eventId e ∉ ignoredIds) events).
Proof.
  rewrite findUnresolved_filter. f_equal.
  apply list_filter_iff. intros e.
  rewrite unresolved_Forall. split; [by intros [_ ?] | by split].
Qed.

(** ** The order of the clients *)

Lemma best_score_nonneg (name : string) (clients : list Client) :
  0 ≤ score (findBestMatch name clients).
Proof.
  destruct (findBestMatch_inv name clients) as [_ Hbest].
  destruct (client _); [by apply Qclt_le_weak, Hbest | rewrite Hbest; apply Qcle_refl].
Qed.

Lemma best_score_le (name : string) (clients clients' : list Client) :
  (∀ c, c ∈ clients → c ∈ clients') →
  score (findBestMatch name clients) ≤ score (findBestMatch name clients').
Proof.
  intros Hsub.
  destruct (findBestMatch_inv name clients) as [_ Hbest].
  destruct (findBestMatch_inv name clients') as [Hle' _].
  destruct (client (findBestMatch name clients)) as [c|].
  - destruct Hbest as (_ & <- & before & after & Heq & _).
    apply Hle', Hsub. rewrite Heq. apply elem_of_app. right. left.
  - rewrite Hbest. apply best_score_nonneg.
Qed.

Lemma unresolved_members (clients clients' : list Client)
    (ignoredIds : list string) (e : EventItem) :
  (∀ c, c ∈ clients ↔ c ∈ clients') →
  Aux.unresolved clients ignoredIds e = Aux.unresolved clients' ignoredIds e.
Proof.
  intros Hmem. apply eq_true_iff_eq.
  rewrite !unresolved_exactMatch, !exactMatch_None.
  split; intros [H ?]; (split; [|done]); intros c Hc; apply H; by apply Hmem.
Qed.

(** Reordering the clients, as the in-place sort of the select box
    does, changes neither which events are unlinked nor the score of any
    entry; only the client suggested among equal scores may change. *)
Theorem findUnresolved_client_order (events : list EventItem)
    (clients clients' : list Client) (ignoredIds : list string) :
  clients ≡ₚ clients' →
  map event (findUnresolved events clients' ignoredIds) =
    map event (findUnresolved events clients ignoredIds) ∧
  map matchScore (findUnresolved events clients' ignoredIds) =
    map matchScore (findUnresolved events clients ignoredIds).
Proof.
  intros Hperm.
  assert (Hmem : ∀ c, c ∈ clients ↔ c ∈ clients') by (intros c; by rewrite Hperm).
  assert (Hfilter :
    filter (λ e, Aux.unresolved clients' ignoredIds e = true) events =
    filter (λ e, Aux.unresolved clients ignoredIds e = true) events).
  { apply list_filter_iff. intros e. by rewrite (unresolved_members _ _ _ _ Hmem). }
  split.
  - by rewrite !events_of_findUnresolved.
  - rewrite !findUnresolved_filter, Hfilter, !map_map.
    apply map_ext. intros e. simpl.
    apply Qcle_antisym; apply best_score_le; intros c; apply Hmem.
Qed.

Lemma findUnresolved_client_order_witness :
  let E := Sample.an_event "e1" "al noor" "u1" [] in
  let a := Sample.a_client "c0" "Al-Noor" in
  let b := Sample.a_client "c1" "Al Noor Est." in
  map matchScore (findUnresolved [E] [b; a] []) =
  map matchScore (findUnresolved [E] [a; b] []).
Proof.
  intros E a b.
  apply (findUnresolved_client_order [E] [a; b] [b; a] []).
  apply perm_swap.
Defined.

(** ** The best match of a concatenation *)

Lemma best_step_score_le (name : string) (best : BestMatch) (c : Client) :
  score best ≤ score (Aux.best_step name best c).
Proof.
  unfold Aux.best_step.
  destruct (Qc_ltb _ _) eqn:Hlt; [|apply Qcle_refl].
  by apply Qclt_le_weak, Qc_ltb_lt.
Qed.

Lemma best_fold_from (name : string) (l : list Client) (b : BestMatch) :
  0 ≤ score b →
  fold_left (Aux.best_step name) l b =
  if Qc_ltb (score b) (score (findBestMatch name l))
  then findBestMatch name l else b.
Proof.
  intros Hb. rewrite findBestMatch_fold.
  induction l as [|c l IH] using rev_ind.
  - simpl. by rewrite (proj2 (Qc_ltb_nlt _ _) Hb).
  - rewrite !fold_left_app. simpl. rewrite IH.
    set (r := fold_left (Aux.best_step name) l {| client := None; score := 0 |}).
    pose proof (best_step_score_le name r c) as Hr.
    destruct (Qc_ltb (score b) (score r)) eqn:Hbr.
    + apply Qc_ltb_lt in Hbr.
      by rewrite (proj2 (Qc_ltb_lt _ _) (Qclt_le_trans _ _ _ Hbr Hr)).
    + unfold Aux.best_step at 1 2 3.
      set (sc := calculateMatchScore name (companyName c)).
      destruct (Qc_ltb (score b) sc) eqn:Hbc.
      * apply Qc_ltb_lt in Hbc. apply Qc_ltb_nlt in Hbr.
        rewrite (proj2 (Qc_ltb_lt _ _) (Qcle_lt_trans _ _ _ Hbr Hbc)). simpl.
        by rewrite (proj2 (Qc_ltb_lt _ _) Hbc).
      * destruct (Qc_ltb (score r) sc); simpl; by rewrite ?Hbc, ?Hbr.
Qed.

(** The best match of two lists put end to end is the best match of the
    second list when it scores strictly higher than that of the first,
    and the best match of the first list otherwise. *)
Theorem findBestMatch_app (name : string) (l1 l2 : list Client) :
  findBestMatch name (l1 ++ l2) =
  if Qc_ltb (score (findBestMatch name l1)) (score (findBestMatch name l2))
  then findBestMatch name l2
  else findBestMatch name l1.
Proof.
  rewrite (findBestMatch_fold name (l1 ++ l2)), fold_left_app.
  rewrite <- (findBestMatch_fold name l1).
  apply best_fold_from, best_score_nonneg.
Qed.

(** ** Ignoring an event *)

Lemma findUnresolved_set_add (events : list EventItem) (clients : list Client)
    (ignoredIds : list string) (id : string) :
  findUnresolved events clients (set_add ignoredIds id) =
  filter (λ v, eventId (event v) ≠ id) (findUnresolved events clients ignoredIds).
Proof.
  rewrite !findUnresolved_filter.
  induction events as [|e events IH]; [done|].
  rewrite !filter_cons.
  assert (Hiff : Aux.unresolved clients (set_add ignoredIds id) e = true ↔
                 Aux.unresolved clients ignoredIds e = true ∧ eventId e ≠ id).
  { rewrite !unresolved_exactMatch, set_add_elem. tauto. }
  destruct (decide (Aux.unresolved clients (set_add ignoredIds id) e = true))
    as [H1|H1].
  - apply Hiff in H1 as [H2 Hid]. rewrite decide_True by done. simpl.
    rewrite filter_cons_True by done. by rewrite IH.
  - destruct (decide (Aux.unresolved clients ignoredIds e = true)) as [H2|H2];
      [|done].
    simpl. rewrite filter_cons_False; [done|].
    simpl. intros Hid. apply H1, Hiff. done.
Qed.

(** Ignoring an entry removes from the unlinked output the entries of
    the events that bear its id, and nothing else; the other entries
    keep their order, suggestion and score. *)
Theorem handleIgnore_removes (events : list EventItem) (clients : list Client)
    (ignoredIds : list string) (u : UnlinkedEvent) :
  findUnresolved events clients (handleIgnore ignoredIds (Some u)) =
  filter (λ v, eventId (event v) ≠ eventId (event u))
         (findUnresolved events clients ignoredIds).
Proof. apply findUnresolved_set_add. Qed.

(** ** Navigation *)

Lemma filter_all {A : Type} (P : A → Prop) `{!∀ x, Decision (P x)} (l : list A) :
  (∀ x, x ∈ l → P x) → filter P l = l.
Proof.
  induction l as [|y l IH]; intros HP; [done|].
  rewrite filter_cons_True by (apply HP; left).
  f_equal. apply IH. intros x Hx. apply HP. by right.
Qed.

(** In a list without two elements of the same key, filtering out the
    key of the element at index [i] deletes that element. *)
Lemma filter_delete {A B : Type} `{!EqDecision B} (f : A → B) (l : list A)
    (i : nat) (x : A) :
  NoDup (map f l) → l !! i = Some x →
  filter (λ y, f y ≠ f x) l = delete i l.
Proof.
  revert i. induction l as [|y l IH]; intros i Hnd Hi; [done|].
  simpl in Hnd. apply NoDup_cons in Hnd as [Hy Hnd].
  destruct i as [|i]; simpl in Hi.
  - injection Hi as ->. rewrite filter_cons_False by (intros H; by apply H).
    simpl. apply filter_all. intros z Hz Heq. apply Hy. rewrite <- Heq.
    by apply list_elem_of_fmap_2.
  - rewrite filter_cons_True.
    + simpl. f_equal. by apply IH.
    + intros Heq. apply Hy. rewrite Heq.
      apply list_elem_of_fmap_2. by apply list_elem_of_lookup_2 in Hi.
Qed.

Lemma NoDup_map_filter {A B : Type} (f : A → B) (P : A → Prop)
    `{!∀ x, Decision (P x)} (l : list A) :
  NoDup (map f l) → NoDup (map f (filter P l)).
Proof.
  induction l as [|x l IH]; [done|]. simpl.
  intros [Hx Hnd]%NoDup_cons. rewrite filter_cons.
  destruct (decide (P x)); [|by apply IH].
  simpl. apply NoDup_cons. split; [|by apply IH].
  intros (y & Hy & [_ Hin]%list_elem_of_filter)%list_elem_of_fmap.
  apply Hx. rewrite Hy. by apply list_elem_of_fmap_2.
Qed.

Lemma NoDup_entry_ids (events : list EventItem) (clients : list Client)
    (ignoredIds : list string) :
  NoDup (map eventId events) →
  NoDup (map (λ v, eventId (event v)) (findUnresolved events clients ignoredIds)).
Proof.
  intros Hnd.
  rewrite <- (map_map event eventId), events_of_findUnresolved.
  by apply NoDup_map_filter.
Qed.

(** Skipping passes over the following entry.  In a settled state whose
    events have distinct ids and whose current entry is not the last
    one, after "Skip this event for now" and the effect that follows,
    the skipped entry is gone from the list, the index has moved on by
    one, and so the entry shown is the one that stood two places after
    the skipped one: the entry that stood right after it now sits at
    the old index, before the current one, and is not shown. *)
Theorem skip_passes_over (events : list EventItem) (clients : list Client)
    (st : ModalState) :
  unlinkedEvents st = findUnresolved events clients (ignoredIds st) →
  NoDup (map eventId events) →
  (currentIndex st + 1 < length (unlinkedEvents st))%nat →
  let st' := effect events clients (skip st) in
  unlinkedEvents st' = delete (currentIndex st) (unlinkedEvents st) ∧
  currentIndex st' = S (currentIndex st) ∧
  isComplete st' = isComplete st ∧
  currentItem st' = unlinkedEvents st !! (currentIndex st + 2)%nat ∧
  unlinkedEvents st' !! currentIndex st =
    unlinkedEvents st !! (currentIndex st + 1)%nat ∧
  currentItem st' ≠ unlinkedEvents st !! (currentIndex st + 1)%nat.
Proof.
  intros Hsettled Hids Hlt st'.
  destruct (lookup_lt_is_Some_2 (unlinkedEvents st) (currentIndex st)) as [u Hu];
    [lia|].
  assert (Hnd : NoDup (map (λ v, eventId (event v)) (unlinkedEvents st))).
  { rewrite Hsettled. by apply NoDup_entry_ids. }
  assert (Hnext : next st =
    {| unlinkedEvents := unlinkedEvents st; currentIndex := S (currentIndex st);
       isComplete := isComplete st; ignoredIds := ignoredIds st |}).
  { unfold next. by rewrite (proj2 (Z.ltb_lt _ _)) by lia. }
  assert (Hlist : unlinkedEvents st' = delete (currentIndex st) (unlinkedEvents st)).
  { subst st'. unfold effect, skip, currentItem. cbn [unlinkedEvents ignoredIds].
    rewrite Hu. cbn [handleIgnore].
    rewrite findUnresolved_set_add, <- Hsettled.
    by apply (filter_delete (λ v, eventId (event v))). }
  assert (Hidx : currentIndex st' = S (currentIndex st)).
  { subst st'. unfold effect, skip. cbn [currentIndex]. by rewrite Hnext. }
  assert (Hcur : currentItem st' = unlinkedEvents st !! (currentIndex st + 2)%nat).
  { unfold currentItem. rewrite Hlist, Hidx.
    rewrite list_lookup_delete_ge by lia. f_equal. lia. }
  split_and!; try done.
  - assert (Hlen : length (unlinkedEvents st') = pred (length (unlinkedEvents st))).
    { rewrite Hlist, length_delete; [lia|]. by exists u. }
    subst st'. unfold effect in *. cbn [isComplete unlinkedEvents] in *.
    rewrite Hlen. destruct (length (unlinkedEvents st)) as [|[|n]]; [lia..|].
    simpl. unfold skip. cbn [isComplete]. by rewrite Hnext.
  - rewrite Hlist, list_lookup_delete_ge by lia. f_equal. lia.
  - rewrite Hcur. intros Heq.
    destruct (lookup_lt_is_Some_2 (unlinkedEvents st) (currentIndex st + 1)) as [v Hv];
      [lia|].
    rewrite Hv in Heq.
    assert (NoDup (unlinkedEvents st)) as Hnd' by (by apply NoDup_fmap_1 in Hnd).
    pose proof (NoDup_lookup _ _ _ _ Hnd' Heq Hv). lia.
Qed.

Lemma skip_passes_over_witness :
  let A := Sample.an_event "e1" "Zed" "u1" [] in
  let B := Sample.an_event "e2" "Yam" "u1" [] in
  let C := Sample.an_event "e3" "Xen" "u1" [] in
  let st := {| unlinkedEvents := findUnresolved [A; B; C] [] [];
               currentIndex := 0; isComplete := false; ignoredIds := [] |} in
  currentItem (effect [A; B; C] [] (skip st)) = Some (Aux.entry [] C).
Proof.
  intros A B C st.
  destruct (skip_passes_over [A; B; C] [] st) as (_ & _ & _ & H & _).
  - reflexivity.
  - by apply (bool_decide_unpack _).
  - simpl. lia.
  - rewrite H. reflexivity.
Defined.

(** Skipping the last entry of the list ends the pass: the panel
    "Database Clean" is rendered, while the entries that stood before
    the skipped one are still in the list. *)
Theorem skip_last_completes (events : list EventItem) (clients : list Client)
    (st : ModalState) :
  unlinkedEvents st = findUnresolved events clients (ignoredIds st) →
  NoDup (map eventId events) →
  (currentIndex st + 1 = length (unlinkedEvents st))%nat →
  let st' := effect events clients (skip st) in
  unlinkedEvents st' = take (currentIndex st) (unlinkedEvents st) ∧
  length (unlinkedEvents st') = currentIndex st ∧
  isComplete st' = true ∧
  render st' = DatabaseClean.
Proof.
  intros Hsettled Hids Hlast st'.
  destruct (lookup_lt_is_Some_2 (unlinkedEvents st) (currentIndex st)) as [u Hu];
    [lia|].
  assert (Hnd : NoDup (map (λ v, eventId (event v)) (unlinkedEvents st))).
  { rewrite Hsettled. by apply NoDup_entry_ids. }
  assert (Hnext : isComplete (next st) = true).
  { unfold next. by rewrite (proj2 (Z.ltb_ge _ _)) by lia. }
  assert (Hlist : unlinkedEvents st' = take (currentIndex st) (unlinkedEvents st)).
  { subst st'. unfold effect, skip, currentItem. cbn [unlinkedEvents ignoredIds].
    rewrite Hu. cbn [handleIgnore].
    rewrite findUnresolved_set_add, <- Hsettled.
    rewrite (filter_delete (λ v, eventId (event v)) _ _ _ Hnd Hu).
    rewrite delete_take_drop, drop_ge by lia. apply app_nil_r. }
  assert (Hc : isComplete st' = true).
  { subst st'. unfold effect, skip. cbn [isComplete]. rewrite Hnext.
    by destruct (_ && _). }
  split_and!; try done.
  - rewrite Hlist, length_take. lia.
  - unfold render. by rewrite Hc.
Qed.

Lemma skip_last_completes_witness :
  let A := Sample.an_event "e1" "Zed" "u1" [] in
  let B := Sample.an_event "e2" "Yam" "u1" [] in
  let st := {| unlinkedEvents := findUnresolved [A; B] [] [];
               currentIndex := 1; isComplete := false; ignoredIds := [] |} in
  unlinkedEvents (effect [A; B] [] (skip st)) = [Aux.entry [] A] ∧
  render (effect [A; B] [] (skip st)) = DatabaseClean.
Proof.
  intros A B st.
  destruct (skip_last_completes [A; B] [] st) as (H1 & _ & _ & H4).
  - reflexivity.
  - by apply (bool_decide_unpack _).
  - reflexivity.
  - split; [by rewrite H1 | done].
Defined.

(** ** Line items of a quotation *)

Import QuotationGenerator.

Lemma initial_lookup (items : list LineItem) (m : gmap string bool) (k : string) :
  fold_left (λ initial item, <[itemId item := true]> initial) items m !! k =
  if decide (k ∈ map itemId items) then Some true else m !! k.
Proof.
  revert m. induction items as [|item items IH]; intros m; cbn [fold_left map].
  - rewrite decide_False; [done | apply not_elem_of_nil].
  - rewrite IH. destruct (decide (k ∈ map itemId items)) as [Hin|Hnin].
    + rewrite decide_True; [done | by right].
    + destruct (decide (k = itemId item)) as [->|Hne].
      * rewrite decide_True by left. apply lookup_insert_eq.
      * rewrite decide_False by (intros [?|?]%elem_of_cons; done).
        by apply lookup_insert_ne.
Qed.

(** When the generator opens, every line item of the event is included
    in the quotation. *)
Theorem initially_all_included (cost_tracker : field (list LineItem)) :
  filteredLineItems (or_empty cost_tracker) (initial_includedItems cost_tracker)
  = or_empty cost_tracker.
Proof.
  unfold filteredLineItems, initial_includedItems. apply filter_all.
  intros item Hitem. unfold included. rewrite initial_lookup.
  rewrite decide_True; [done | by apply list_elem_of_fmap_2].
Qed.

Lemma included_toggle (id k : string) (m : gmap string bool) :
  included (toggleItemInclusion id m) k =
  if decide (k = id) then negb (included m id) else included m k.
Proof.
  unfold toggleItemInclusion, included at 1.
  destruct (decide (k = id)) as [->|Hne].
  - by rewrite lookup_insert_eq.
  - by rewrite lookup_insert_ne.
Qed.

(** Toggling an id flips the inclusion of the items of that id and of
    no other item; toggling it twice gives back the same selection,
    also for an id that the map did not hold. *)
Theorem toggleItemInclusion_flips (id : string) (lineItems : list LineItem)
    (includedItems : gmap string bool) :
  filteredLineItems lineItems (toggleItemInclusion id includedItems) =
    filter (λ item, (if decide (itemId item = id)
                     then negb (included includedItems id)
                     else included includedItems (itemId item)) = true)
           lineItems ∧
  filteredLineItems lineItems
    (toggleItemInclusion id (toggleItemInclusion id includedItems)) =
    filteredLineItems lineItems includedItems.
Proof.
  unfold filteredLineItems. split.
  - apply list_filter_iff. intros item. by rewrite included_toggle.
  - apply list_filter_iff. intros item. rewrite !included_toggle.
    destruct (decide (itemId item = id)) as [->|]; [|done].
    rewrite decide_True by done. by rewrite negb_involutive.
Qed.

(** Removing an id removes the items of that id from the line items and
    from the quotation, forgets its inclusion, and leaves the other
    items and their inclusion as they were. *)
Theorem handleRemoveItem_removes (id : string) (lineItems : list LineItem)
    (includedItems : gmap string bool) :
  let lineItems' := (handleRemoveItem id lineItems includedItems).1 in
  let includedItems' := (handleRemoveItem id lineItems includedItems).2 in
  (id ∉ map itemId lineItems') ∧
  includedItems' !! id = None ∧
  filteredLineItems lineItems' includedItems' =
    filter (λ item, itemId item ≠ id) (filteredLineItems lineItems includedItems).
Proof.
  unfold handleRemoveItem, filteredLineItems. cbn [fst snd]. split_and!.
  - intros Hin. apply list_elem_of_fmap in Hin as (item & Heq & Hin).
    apply list_elem_of_filter in Hin as [Hne _]. by apply Hne.
  - apply lookup_delete_eq.
  - rewrite !list_filter_filter. apply list_filter_iff. intros item.
    unfold included. split.
    + intros [Hinc Hne]. by rewrite lookup_delete_ne in Hinc.
    + intros [Hne Hinc]. by rewrite lookup_delete_ne.
Qed.

(** Saving an edited item keeps the number, the order and the ids of
    the line items; every item of the edited id becomes the edited
    item, the others are untouched, and an edit whose id no line item
    bears changes nothing. *)
Theorem handleUpdateItem_keeps_ids (updatedItem : LineItem)
    (lineItems : list LineItem) :
  map itemId (handleUpdateItem updatedItem lineItems) = map itemId lineItems ∧
  Forall2 (λ item' item,
             item' = if decide (itemId item = itemId updatedItem)
                     then updatedItem else item)
          (handleUpdateItem updatedItem lineItems) lineItems ∧
  (itemId updatedItem ∉ map itemId lineItems →
   handleUpdateItem updatedItem lineItems = lineItems).
Proof.
  unfold handleUpdateItem. split_and!.
  - rewrite map_map. apply map_ext. intros item.
    by destruct (String.eqb_spec (itemId item) (itemId updatedItem)).
  - induction lineItems as [|item l IH]; simpl; constructor; [|done].
    destruct (String.eqb_spec (itemId item) (itemId updatedItem));
      [by rewrite decide_True | by rewrite decide_False].
  - intros Hnin. induction lineItems as [|item l IH]; [done|]. simpl.
    destruct (String.eqb_spec (itemId item) (itemId updatedItem)) as [Heq|_].
    + destruct Hnin. rewrite <- Heq. left.
    + f_equal. apply IH. intros Hin. apply Hnin. by right.
Qed.

Lemma handleUpdateItem_keeps_ids_witness :
  let a := Sample.an_item 100 60 2 in
  let b := Sample.an_item_called "i2" 500 0 1 in
  let b' := Sample.an_item_called "i2" 450 10 3 in
  let c := Sample.an_item_called "i3" 7 7 7 in
  handleUpdateItem b' [a; b] = [a; b'] ∧
  map itemId (handleUpdateItem b' [a; b]) = ["i1"; "i2"] ∧
  handleUpdateItem c [a; b] = [a; b].
Proof.
  intros a b b' c.
  destruct (handleUpdateItem_keeps_ids b' [a; b]) as (Hids & Hall & _).
  destruct (handleUpdateItem_keeps_ids c [a; b]) as (_ & _ & Hnone).
  split_and!.
  - apply Forall2_cons_inv_r in Hall as (x & l & Hx & Hl & Heq).
    apply Forall2_cons_inv_r in Hl as (y & l' & Hy & Hl' & ->).
    apply Forall2_nil_inv_r in Hl' as ->.
    rewrite Heq, Hx, Hy. by rewrite decide_False, decide_True by done.
  - by rewrite Hids.
  - apply Hnone. by apply (bool_decide_unpack _).
Defined.

(** ** The tables of a quotation *)

Import QuotationPreview.

Lemma group_of_le (item : LineItem) : (group_of item ≤ 3)%nat.
Proof.
  unfold group_of. destruct (costType item) as [| |s]; [lia..|].
  repeat (destruct (String.eqb _ _); [lia|]). lia.
Qed.

Lemma groups_fold (l : list LineItem) (g0 g1 g2 g3 : list LineItem) :
  fold_left push_group l
    [("Fixed Costs", g0); ("Variable Costs", g1);
     ("Mandatory Compliance Costs", g2); ("Other Items", g3)] =
  [("Fixed Costs", (g0 ++ filter (λ item, group_of item = 0%nat) l)%list);
   ("Variable Costs", (g1 ++ filter (λ item, group_of item = 1%nat) l)%list);
   ("Mandatory Compliance Costs",
    (g2 ++ filter (λ item, group_of item = 2%nat) l)%list);
   ("Other Items", (g3 ++ filter (λ item, group_of item = 3%nat) l)%list)].
Proof.
  revert g0 g1 g2 g3. induction l as [|item l IH]; intros g0 g1 g2 g3.
  - simpl. by rewrite !app_nil_r.
  - cbn [fold_left]. unfold push_group at 2. rewrite !filter_cons.
    pose proof (group_of_le item) as Hle.
    destruct (group_of item) as [|[|[|[|n]]]]; [..|lia];
      cbn [alter list_alter fst snd]; rewrite IH;
      repeat (rewrite decide_True by done || rewrite decide_False by done);
      by rewrite <- app_assoc.
Qed.

Lemma concat_nonempty {A : Type} (groups : list (string * list A)) :
  concat (map snd (filter (λ g, (0 < length g.2)%nat) groups)) =
  concat (map snd groups).
Proof.
  induction groups as [|[k g] groups IH]; [done|].
  destruct g as [|x g].
  - rewrite filter_cons_False by (simpl; lia). exact IH.
  - rewrite filter_cons_True by (simpl; lia). simpl. by rewrite IH.
Qed.

Lemma filter_groups_perm (l : list LineItem) :
  (filter (λ item, group_of item = 0%nat) l ++
   filter (λ item, group_of item = 1%nat) l ++
   filter (λ item, group_of item = 2%nat) l ++
   filter (λ item, group_of item = 3%nat) l)%list ≡ₚ l.
Proof.
  induction l as [|item l IH]; [done|].
  rewrite !filter_cons. pose proof (group_of_le item) as Hle.
  destruct (group_of item) as [|[|[|[|n]]]]; [..|lia];
    repeat case_decide; try lia.
  - simpl. by rewrite IH.
  - rewrite <- app_comm_cons, <- Permutation_middle. by rewrite IH.
  - rewrite <- app_comm_cons, (app_assoc (filter _ l)), <- Permutation_middle,
      <- app_assoc. by rewrite IH.
  - rewrite !app_assoc, <- Permutation_middle, <- !app_assoc. by rewrite IH.
Qed.

(** The tables of a quotation are the non-empty ones among the four
    groups, in the order fixed, variable, compliance, other; each holds
    the line items of its cost type in their order, and together they
    hold every line item exactly once. *)
Theorem groupedItems_partition (lineItems : list LineItem) :
  groupedItems lineItems =
    filter (λ g, (0 < length g.2)%nat)
      [("Fixed Costs", filter (λ item, group_of item = 0%nat) lineItems);
       ("Variable Costs", filter (λ item, group_of item = 1%nat) lineItems);
       ("Mandatory Compliance Costs",
        filter (λ item, group_of item = 2%nat) lineItems);
       ("Other Items", filter (λ item, group_of item = 3%nat) lineItems)] ∧
  Forall (λ g, g.2 ≠ []) (groupedItems lineItems) ∧
  concat (map snd (groupedItems lineItems)) ≡ₚ lineItems.
Proof.
  assert (Hg : groupedItems lineItems =
    filter (λ g, (0 < length g.2)%nat)
      [("Fixed Costs", filter (λ item, group_of item = 0%nat) lineItems);
       ("Variable Costs", filter (λ item, group_of item = 1%nat) lineItems);
       ("Mandatory Compliance Costs",
        filter (λ item, group_of item = 2%nat) lineItems);
       ("Other Items", filter (λ item, group_of item = 3%nat) lineItems)]).
  { unfold groupedItems. by rewrite groups_fold. }
  split_and!; [done | |].
  - rewrite Hg. apply Forall_forall. intros g [Hlen _]%list_elem_of_filter.
    destruct (g.2); [simpl in Hlen; lia | done].
  - rewrite Hg, concat_nonempty. simpl. rewrite app_nil_r.
    apply filter_groups_perm.
Qed.

(** ** The amounts of a quotation *)

Lemma add_NaN_r (a : number) : add a NaN = NaN.
Proof. by destruct a. Qed.

Lemma subtotal_NaN (items : list LineItem) :
  fold_left
    (λ acc item, add acc (mul (operand (client_price_sar item))
                              (operand (quantity item))))
    items NaN = NaN.
Proof. induction items as [|item items IH]; [done|]. exact IH. Qed.

Lemma subtotal_present (items : list LineItem) (a : Qc) :
  Forall (λ item, ∃ p q, client_price_sar item = Present (Num p) ∧
                         quantity item = Present (Num q)) items →
  fold_left
    (λ acc item, add acc (mul (operand (client_price_sar item))
                              (operand (quantity item))))
    items (Num a)
  = Num (a + Spec.sum_Qc (map Spec.line_revenue items)).
Proof.
  intros Hitems. revert a.
  induction Hitems as [|item items (p & q & Hp & Hq) _ IH]; intros a.
  - simpl. by rewrite Qcplus_0_r.
  - cbn [fold_left map]. unfold Spec.line_revenue at 1. rewrite Hp, Hq.
    cbn [operand mul add Spec.coerce]. rewrite IH. f_equal.
    unfold Spec.sum_Qc. cbn [foldr]. ring.
Qed.

(** For line items whose price and quantity are all present, the
    subtotal of the quotation is the revenue that the financial studio
    derives for the event that holds these items. *)
Theorem quotation_subtotal_is_revenue (event : EventItem) (items : list LineItem)
    (taxRate : number) (amount : field number) :
  cost_tracker event = Present items →
  Forall (λ item, ∃ p q, client_price_sar item = Present (Num p) ∧
                         quantity item = Present (Num q)) items →
  subtotal (calculations items taxRate amount) = revenue (withFinancials event).
Proof.
  intros Hct Hitems. rewrite revenue_sum, Hct. unfold calculations.
  cbn [subtotal or_empty]. by rewrite subtotal_present, Qcplus_0_l.
Qed.

Lemma quotation_subtotal_is_revenue_witness :
  let items := [Sample.an_item 100 60 2; Sample.an_item 500 0 1] in
  subtotal (calculations items (Num (Qc_of_Z 15)) Undefined) =
  revenue (withFinancials (Sample.an_event "e1" "Acme" "u1" items)).
Proof.
  intros items. apply quotation_subtotal_is_revenue; [reflexivity|].
  repeat constructor; by eexists _, _.
Defined.

(** A line item whose price or quantity is [undefined] (or [NaN]) turns
    the subtotal, the tax and the total of the quotation into [NaN]:
    the quotation does not read a missing number as 0, unlike the
    financial studio. *)
Theorem quotation_missing_number (items : list LineItem) (item : LineItem)
    (taxRate : number) (amount : field number) :
  item ∈ items →
  operand (client_price_sar item) = NaN ∨ operand (quantity item) = NaN →
  subtotal (calculations items taxRate amount) = NaN ∧
  salesTax (calculations items taxRate amount) = NaN ∧
  total (calculations items taxRate amount) = NaN.
Proof.
  intros (l1 & l2 & ->)%list_elem_of_split Hnan.
  assert (Hsub : subtotal (calculations (l1 ++ item :: l2) taxRate amount) = NaN).
  { unfold calculations. cbn [subtotal]. rewrite fold_left_app. cbn [fold_left].
    assert (mul (operand (client_price_sar item)) (operand (quantity item)) = NaN)
      as ->.
    { destruct Hnan as [-> | ->]; [done|]. by destruct (operand _). }
    rewrite add_NaN_r. apply subtotal_NaN. }
  unfold calculations in *. cbn [subtotal salesTax total] in *.
  by rewrite Hsub.
Qed.

Lemma quotation_missing_number_witness :
  let item := {| itemId := "i2"; item_name := "Lights"; quantity := Undefined;
                 unit_cost_sar := Present (Num (Qc_of_Z 10));
                 client_price_sar := Present (Num (Qc_of_Z 20));
                 costType := Undefined; description := Undefined |} in
  total (calculations [Sample.an_item 100 60 2; item] (Num (Qc_of_Z 15)) Undefined)
  = NaN.
Proof.
  intros item.
  apply (quotation_missing_number [Sample.an_item 100 60 2; item] item).
  - right. left.
  - by right.
Defined.

(** ** Re-scan *)

(** After "Re-scan" and the effect that follows, the pass starts again
    at the first entry with nothing ignored: the list holds every event
    without exact match, among them, in the same order, all the entries
    it held before. *)
Theorem handleRefresh_restores (events : list EventItem) (clients : list Client)
    (st : ModalState) :
  unlinkedEvents st = findUnresolved events clients (ignoredIds st) →
  let st' := effect events clients (handleRefresh st) in
  currentIndex st' = 0%nat ∧
  ignoredIds st' = [] ∧
  unlinkedEvents st' = findUnresolved events clients [] ∧
  unlinkedEvents st `sublist_of` unlinkedEvents st'.
Proof.
  intros Hsettled st'. split_and!; try done.
  subst st'. unfold effect, handleRefresh. cbn [unlinkedEvents ignoredIds].
  rewrite Hsettled, !findUnresolved_filter.
  apply fmap_sublist. clear Hsettled.
  induction events as [|e events IH]; [done|].
  rewrite !filter_cons.
  destruct (decide (Aux.unresolved clients (ignoredIds st) e = true)) as [H1|H1].
  - rewrite decide_True.
    + by apply sublist_skip.
    + apply unresolved_exactMatch in H1 as [? _].
      apply unresolved_exactMatch. split; [done | apply not_elem_of_nil].
  - destruct (decide _); [by apply sublist_cons | done].
Qed.

Lemma handleRefresh_restores_witness :
  let A := Sample.an_event "e1" "Zed" "u1" [] in
  let B := Sample.an_event "e2" "Yam" "u1" [] in
  let st := {| unlinkedEvents := findUnresolved [A; B] [] ["e1"];
               currentIndex := 0; isComplete := true; ignoredIds := ["e1"] |} in
  unlinkedEvents (effect [A; B] [] (handleRefresh st)) = findUnresolved [A; B] [] [].
Proof.
  intros A B st.
  by destruct (handleRefresh_restores [A; B] [] st) as (_ & _ & H & _).
Defined.

(** ** Errors and repetition of the derivation *)

Section DerivationAgain.

Import Binary64 Dynamic FinancialStudio64.

Variable ToNumber_other : value → double.





Lemma withFinancials_Some (event r : object) :
  withFinancials ToNumber_other event = Some r →
  ∃ revenue cost,
    reduce (or_else (get event "cost_tracker") (JArray []))
           (line_total ToNumber_other "client_price_sar") zero = Some revenue ∧
    reduce (or_else (get event "cost_tracker") (JArray []))
           (line_total ToNumber_other "unit_cost_sar") zero = Some cost ∧
    r = <["margin" := JNumber
            (if gt revenue zero
             then mul (div (sub revenue cost) revenue) (of_Z 100)
             else zero)]>
          (<["profit" := JNumber (sub revenue cost)]>
             (<["cost" := JNumber cost]>
                (<["revenue" := JNumber revenue]> event))).
Proof.
  unfold withFinancials. intros Hr.
  destruct (reduce _ (line_total _ "client_price_sar") _) as [revenue|];
    simpl in Hr; [|done].
  destruct (reduce _ (line_total _ "unit_cost_sar") _) as [cost|];
    simpl in Hr; [|done].
  injection Hr as <-. by exists revenue, cost.
Qed.

(** Deriving again from a derived event gives the same object: the four
    properties are recomputed from the line items, which the first
    derivation left in place, and replace the ones it had set.  The
    second derivation throws exactly when the first one does. *)
Theorem withFinancials_idempotent (event : object) :
  withFinancials ToNumber_other event ≫= withFinancials ToNumber_other =
  withFinancials ToNumber_other event.
Proof.
  destruct (withFinancials ToNumber_other event) as [r|] eqn:Hr; [|done].
  cbn [mbind option_bind].
  destruct (withFinancials_Some event r Hr) as (revenue & cost & Hrev & Hcost & ->).
  clear Hr. unfold withFinancials.
  replace (get (<["margin" := _]> _) "cost_tracker")
    with (get event "cost_tracker")
    by (unfold get; by rewrite !lookup_insert_ne).
  rewrite Hrev, Hcost. cbn [mbind option_bind].
  f_equal. apply map_eq. intros k.
  destruct (decide (k = "margin")) as [->|]; [by rewrite !lookup_insert_eq|].
  rewrite !(lookup_insert_ne _ "margin") by done.
  destruct (decide (k = "profit")) as [->|]; [by rewrite !lookup_insert_eq|].
  rewrite !(lookup_insert_ne _ "profit") by done.
  destruct (decide (k = "cost")) as [->|]; [by rewrite !lookup_insert_eq|].
  rewrite !(lookup_insert_ne _ "cost") by done.
  destruct (decide (k = "revenue")) as [->|]; [by rewrite !lookup_insert_eq|].
  by rewrite !lookup_insert_ne by done.
Qed.

End DerivationAgain.
